(** * Mock server: the fan-out core of the WebSocket handlers and the
      streaming calls of the gRPC service

    A shallow embedding of [internal/websocket/handlers.go] (the registry of
    connections and rooms, the broadcast loops and the three session handlers)
    and of the streaming methods of the gRPC [MockServer], with the
    properties of the specification stated over it.

    What the Go code takes from its libraries is a parameter of the model:
    - [clock]: the successive readings of [time.Now().Unix()];
    - [link]: whether a [WriteJSON] addressed to a given connection
      succeeds, at a given point of the run (the number of events so far);
    - [json_decode]: [json.Unmarshal], as the fields it finds in a text or
      the error it reports;
    - for the streaming calls, the results of the [Recv] and [Send] calls.
    A handler starts where the upgrade has succeeded and runs against the
    frames its own connection delivers (its inbox); the other sessions show
    in the registry it runs on. Logging is left out; where a function only
    logs a count, the model returns it. *)

From stdpp Require Import base gmap sets list strings pretty.
From Stdlib Require Import ZArith Lia.

(** * The streaming calls of the gRPC service *)

Module GRPC.

(** [pb.StreamRequest] and [pb.StreamResponse]; [sequence] is an [int32]. *)
Record StreamRequest : Type := mkRequest {
  ReqId : string;
  ReqData : string
}.

Record StreamResponse : Type := mkResponse {
  Id : string;
  Data : string;
  Timestamp : Z;
  Sequence : Z
}.

(** Go's conversion to [int32], and its arithmetic: two's complement on 32
    bits. *)
Definition int32 (z : Z) : Z := (z + 2 ^ 31) mod 2 ^ 32 - 2 ^ 31.

(** An [error] value; [None] is [nil]. *)
Abbreviation error := (option string) (only parsing).

(** The result of one [stream.Recv()]. *)
Inductive RecvResult : Type :=
| RecvItem (req : StreamRequest)
| RecvEOF
| RecvError (e : string).

(** The server's end of a stream: the results of the [Send] calls to come
    (when none is left, a send succeeds), the responses that went out, and
    the number of clock readings taken. *)
Record Wire : Type := mkWire {
  outcomes : list error;
  sent : list StreamResponse;
  ticks : nat
}.

Definition fresh (os : list error) : Wire :=
  {| outcomes := os; sent := []; ticks := 0 |}.

Definition tick (s : Wire) : Wire :=
  {| outcomes := outcomes s; sent := sent s; ticks := S (ticks s) |}.

(** [stream.Send(response)] *)
Definition Send (response : StreamResponse) (s : Wire) : error * Wire :=
  match outcomes s with
  | Some e :: rest =>
      (Some e, {| outcomes := rest; sent := sent s; ticks := ticks s |})
  | None :: rest =>
      (None, {| outcomes := rest; sent := sent s ++ [response];
                ticks := ticks s |})
  | [] =>
      (None, {| outcomes := []; sent := sent s ++ [response];
                ticks := ticks s |})
  end.

(** A buffered channel of errors. *)
Record Chan : Type := mkChan {
  buffer : list string;
  capacity : nat;
  closed : bool
}.

Definition make_chan (n : nat) : Chan :=
  {| buffer := []; capacity := n; closed := false |}.

(** [ch <- e]: [None] when the buffer is full and the sender would block. *)
Definition chan_send (e : string) (ch : Chan) : option Chan :=
  if (length (buffer ch) <? capacity ch)%nat
  then Some {| buffer := buffer ch ++ [e]; capacity := capacity ch;
               closed := closed ch |}
  else None.

Definition chan_close (ch : Chan) : Chan :=
  {| buffer := buffer ch; capacity := capacity ch; closed := true |}.

(** [<-ch]: the oldest value of the buffer; on an empty channel, the zero
    value [nil] when it is closed, and [None] (the receiver blocks) when it
    is not. *)
Definition chan_recv (ch : Chan) : option (error * Chan) :=
  match buffer ch with
  | e :: rest =>
      Some (Some e, {| buffer := rest; capacity := capacity ch;
                       closed := closed ch |})
  | [] => if closed ch then Some (None, ch) else None
  end.

Section Calls.

Variable clock : nat → Z.

(** The response [BidiStream] builds for a request. *)
Definition echo_response (req : StreamRequest) (t : Z) (sequence : Z)
  : StreamResponse :=
  {| Id := ReqId req;
     Data := "Echo: " +:+ ReqData req +:+ " (processed)";
     Timestamp := t;
     Sequence := sequence |}.

(** The goroutine of [BidiStream] that receives, over the results its
    [Recv] calls get: whether it has returned, the error channel and the
    wire it leaves. It has not returned when the inbox runs dry before the
    end of the stream (it is blocked in [Recv]). *)
Fixpoint receive_loop (inbox : list RecvResult) (sequence : Z)
    (errChan : Chan) (s : Wire) : bool * Chan * Wire :=
  match inbox with
  | [] => (false, errChan, s)
  | RecvEOF :: _ => (true, errChan, s)
  | RecvError e :: _ =>
      match chan_send e errChan with
      | Some ch => (true, ch, s)
      | None => (false, errChan, s)
      end
  | RecvItem req :: rest =>
      let sequence := int32 (sequence + 1) in
      let response := echo_response req (clock (ticks s)) sequence in
      match Send response (tick s) with
      | (Some e, s') =>
          match chan_send e errChan with
          | Some ch => (true, ch, s')
          | None => (false, errChan, s')
          end
      | (None, s') => receive_loop rest sequence errChan s'
      end
  end.

(** [BidiStream]: the receiving goroutine runs on a channel of capacity 2; a
    second goroutine closes the channel once the first has returned; the
    call returns what it receives from the channel. The result is [None]
    while the call is still waiting. *)
Definition BidiStream (inbox : list RecvResult) (s : Wire)
  : option error * Wire :=
  let errChan := make_chan 2 in
  let '(finished, errChan, s') := receive_loop inbox 0 errChan s in
  let errChan := if finished then chan_close errChan else errChan in
  match chan_recv errChan with
  | Some (err, _) => (Some err, s')
  | None => (None, s')
  end.

(** The response [ServerStream] builds at index [i]. *)
Definition stream_response (req : StreamRequest) (t : Z) (i : nat)
  : StreamResponse :=
  {| Id := ReqId req;
     Data := ReqData req +:+ " - response " +:+ pretty (Z.of_nat i + 1)%Z;
     Timestamp := t;
     Sequence := int32 (Z.of_nat i + 1) |}.

(** The loop of [ServerStream] over the indices it has left; [ctx i] is
    what [stream.Context().Err()] returns at index [i]. *)
Fixpoint ServerStream_loop (ctx : nat → error) (req : StreamRequest)
    (indices : list nat) (s : Wire) : error * Wire :=
  match indices with
  | [] => (None, s)
  | i :: rest =>
      match ctx i with
      | Some e => (Some e, s)
      | None =>
          match Send (stream_response req (clock (ticks s)) i) (tick s) with
          | (Some e, s') => (Some e, s')
          | (None, s') => ServerStream_loop ctx req rest s'
          end
      end
  end.

(** [ServerStream]: [for i := 0; i < 5; i++]. *)
Definition ServerStream (ctx : nat → error) (req : StreamRequest) (s : Wire)
  : error * Wire :=
  ServerStream_loop ctx req (seq 0 5) s.

(** The specification's account of the call's outcome, over the same
    inputs: the receive flow ends well at the end of the input, and ends
    with the first error it meets, be it a receive that fails or the send
    of a response that fails; it has not ended while input may still
    come. *)
Fixpoint flow_outcome (inbox : list RecvResult) (os : list error)
  : option error :=
  match inbox with
  | [] => None
  | RecvEOF :: _ => Some None
  | RecvError e :: _ => Some (Some e)
  | RecvItem _ :: rest =>
      match os with
      | Some e :: _ => Some (Some e)
      | None :: os' => flow_outcome rest os'
      | [] => flow_outcome rest []
      end
  end.

(** The responses of the receive loop to the requests [reqs] when every send
    succeeds, with the counter at [sequence] and the clock at its [t]-th
    reading before the first of them. *)
Fixpoint answered (t : nat) (sequence : Z) (reqs : list StreamRequest)
  : list StreamResponse :=
  match reqs with
  | [] => []
  | req :: rest =>
      let sequence := int32 (sequence + 1) in
      echo_response req (clock t) sequence :: answered (S t) sequence rest
  end.

(** The responses a client is owed for the requests [reqs], numbered from
    [k + 1] on and stamped with the clock's readings from the [t]-th on. *)
Fixpoint numbered (t k : nat) (reqs : list StreamRequest) : list StreamResponse :=
  match reqs with
  | [] => []
  | req :: rest =>
      echo_response req (clock t) (Z.of_nat (S k)) :: numbered (S t) (S k) rest
  end.

(** The requests a receive loop gets before the stream ends or fails. *)
Fixpoint requests (inbox : list RecvResult) : list StreamRequest :=
  match inbox with
  | RecvItem req :: rest => req :: requests rest
  | _ => []
  end.

(** [pb.SimpleResponse]. *)
Record SimpleResponse : Type := mkSimpleResponse {
  Message : string;
  SimpleTimestamp : Z
}.

(** Go's [int], on the 64-bit platforms the server is built for. *)
Definition int64 (z : Z) : Z := (z + 2 ^ 63) mod 2 ^ 64 - 2 ^ 63.

(** [%v] of a [[]string]: the elements between brackets, a space apart. *)
Definition show_strings (l : list string) : string :=
  "[" +:+ String.concat " " l +:+ "]".

(** The server's end of a client-streaming call: the result of the
    [SendAndClose] to come, the response that went out, and the number of
    clock readings taken. *)
Record Upload : Type := mkUpload {
  reply_outcome : error;
  reply : option SimpleResponse;
  up_ticks : nat
}.

(** [stream.SendAndClose(response)] *)
Definition SendAndClose (response : SimpleResponse) (u : Upload)
  : error * Upload :=
  match reply_outcome u with
  | Some e => (Some e, u)
  | None => (None, {| reply_outcome := None; reply := Some response;
                      up_ticks := up_ticks u |})
  end.

(** The summary [ClientStream] answers with. *)
Definition summary (count : Z) (messages : list string) (totalValue : Z)
  : string :=
  "Received " +:+ pretty count +:+ " messages: " +:+ show_strings messages
  +:+ " (total value: " +:+ pretty totalValue +:+ ")".

(** The loop of [ClientStream]; the result is [None] while the call waits
    for more. *)
Fixpoint ClientStream_loop (inbox : list RecvResult) (messages : list string)
    (totalValue : Z) (count : Z) (u : Upload) : option error * Upload :=
  match inbox with
  | [] => (None, u)
  | RecvEOF :: _ =>
      let response := {| Message := summary count messages totalValue;
                         SimpleTimestamp := clock (up_ticks u) |} in
      let (err, u') :=
        SendAndClose response
          {| reply_outcome := reply_outcome u; reply := reply u;
             up_ticks := S (up_ticks u) |} in
      (Some err, u')
  | RecvError e :: _ => (Some (Some e), u)
  | RecvItem req :: rest =>
      ClientStream_loop rest (messages ++ [ReqData req]) totalValue
        (int64 (count + 1)) u
  end.

(** [ClientStream]: [var messages []string; var totalValue int32;
    count := 0]. *)
Definition ClientStream (inbox : list RecvResult) (u : Upload)
  : option error * Upload :=
  ClientStream_loop inbox [] 0 0 u.

End Calls.

(** Sample surroundings. *)
Definition sample_clock (n : nat) : Z := 1700000000 + Z.of_nat n.

Definition no_cancel (i : nat) : error := None.

Definition hello : StreamRequest := {| ReqId := "a"; ReqData := "hello" |}.

(** The context is cancelled from index [i] on. *)
Definition cancelled_from (i : nat) (j : nat) : error :=
  if (i <=? j)%nat then Some "context canceled" else None.

(** A client-streaming call that has sent nothing yet and whose send will
    succeed. *)
Definition waiting : Upload :=
  {| reply_outcome := None; reply := None; up_ticks := 0 |}.

End GRPC.

(** * The WebSocket handlers *)

Module WS.

(** ** Data *)

(** [*websocket.Conn]: only the identity of a connection matters (map key). *)
Abbreviation Conn := nat (only parsing).

(** [interface{}] payloads, by the shapes the handlers build or pass on. *)
Inductive Payload : Type :=
| DNil
| DString (s : string)
| DMap (kv : list (string * string))
| DJson (raw : string).

(** [type Message struct]. *)
Record Message : Type := mkMessage {
  Type_ : string;
  Data : Payload;
  Timestamp : Z;
  Room : string
}.

(** The zero value a [var msg Message] starts from. *)
Definition zeroMessage : Message :=
  {| Type_ := ""; Data := DNil; Timestamp := 0; Room := "" |}.

(** What [json.Unmarshal] found in a JSON object: a key that is absent leaves
    the field of the target struct as it was. *)
Record Fields : Type := mkFields {
  f_type : option string;
  f_data : option Payload;
  f_timestamp : option Z;
  f_room : option string
}.

Definition fill (f : Fields) (msg : Message) : Message :=
  {| Type_ := default (Type_ msg) (f_type f);
     Data := default (Data msg) (f_data f);
     Timestamp := default (Timestamp msg) (f_timestamp f);
     Room := default (Room msg) (f_room f) |}.

(** gorilla's frame types. *)
Definition TextMessage : Z := 1.
Definition BinaryMessage : Z := 2.

(** The result of one [ws.ReadMessage()]. *)
Inductive ReadResult : Type :=
| RFrame (messageType : Z) (data : string)
| RErr (err : string).

(** What a run does to the outside: a write on a connection, with its
    outcome, or a [conn.Close()]. *)
Inductive Event : Type :=
| EvWrite (c : Conn) (m : Message) (ok : bool)
| EvClose (c : Conn).

(** [type WebSocketHandlers struct]: the set of clients and the rooms. The
    inner maps only ever hold [true], so they are sets. *)
Record WebSocketHandlers : Type := mkHandlers {
  clients : gset Conn;
  rooms : gmap string (gset Conn)
}.

Definition NewWebSocketHandlers : WebSocketHandlers :=
  {| clients := ∅; rooms := ∅ |}.

(** The registry, the trace of events so far and the number of clock
    readings taken. *)
Record World : Type := mkWorld {
  hub : WebSocketHandlers;
  trace : list Event;
  ticks : nat
}.

Definition initial : World :=
  {| hub := NewWebSocketHandlers; trace := []; ticks := 0 |}.

(** The members of a room; a room without an entry has none. *)
Definition members (room : string) (h : WebSocketHandlers) : gset Conn :=
  default ∅ (rooms h !! room).

(** The connections a list of events writes to, in order. *)
Definition recipients (evs : list Event) : list Conn :=
  omap (λ e, match e with EvWrite c _ _ => Some c | EvClose _ => None end) evs.

(** The writes of a list of events that succeeded, counted. *)
Fixpoint successes (evs : list Event) : nat :=
  match evs with
  | [] => 0
  | EvWrite _ _ true :: rest => S (successes rest)
  | _ :: rest => successes rest
  end.

(** The writes that failed, counted. *)
Fixpoint failures (evs : list Event) : nat :=
  match evs with
  | [] => 0
  | EvWrite _ _ false :: rest => S (failures rest)
  | _ :: rest => failures rest
  end.

(** The events a step added: the trace only ever grows at its end. *)
Definition emitted (w w' : World) : list Event :=
  drop (length (trace w)) (trace w').

(** The messages a list of events carries. *)
Definition messages (evs : list Event) : list Message :=
  omap (λ e, match e with EvWrite _ m _ => Some m | EvClose _ => None end) evs.

(** The leave notices a list of events addresses to connection [d]. *)
Fixpoint leave_notices (d : Conn) (evs : list Event) : nat :=
  match evs with
  | [] => 0
  | EvWrite c m _ :: rest =>
      if (c =? d)%nat && String.eqb (Type_ m) "leave"
      then S (leave_notices d rest) else leave_notices d rest
  | EvClose _ :: rest => leave_notices d rest
  end.

(** ** Sample surroundings, for the examples *)

(** A clock that starts in November 2023 and moves a second a reading. *)
Definition sample_clock (n : nat) : Z := 1700000000 + Z.of_nat n.

(** Every write succeeds. *)
Definition link_up (n : nat) (c : Conn) : bool := true.

(** The link goes down after [k] writes and stays down. *)
Definition link_up_until (k : nat) (n : nat) (c : Conn) : bool := (n <? k)%nat.

(** The writes to [c0] fail, the others succeed. *)
Definition link_down_for (c0 : Conn) (n : nat) (c : Conn) : bool :=
  negb (c =? c0)%nat.

Definition quote : string := String (Ascii.ascii_of_nat 34) EmptyString.

(** The text of the JSON object with the one key [timestamp], at 0. *)
Definition text_timestamp_0 : string :=
  "{" +:+ quote +:+ "timestamp" +:+ quote +:+ ":0}".

(** The text of the JSON object with the one key [data], at "hi". *)
Definition text_data_hi : string :=
  "{" +:+ quote +:+ "data" +:+ quote +:+ ":" +:+ quote +:+ "hi" +:+ quote +:+ "}".

Definition no_fields : Fields :=
  {| f_type := None; f_data := None; f_timestamp := None; f_room := None |}.

(** A decoder that knows three texts and, like [json.Unmarshal], reports
    anything that is not JSON. *)
Definition sample_decode (s : string) : Fields + string :=
  if String.eqb s "{}" then inl no_fields
  else if String.eqb s text_timestamp_0 then
    inl {| f_type := None; f_data := None; f_timestamp := Some 0%Z;
           f_room := None |}
  else if String.eqb s text_data_hi then
    inl {| f_type := None; f_data := Some (DString "hi");
           f_timestamp := None; f_room := None |}
  else inr "invalid character looking for beginning of value".

(** Connections 1 and 2 in room1, connection 3 in room2. *)
Definition two_rooms : World :=
  {| hub := {| clients := ∅;
               rooms := <["room1" := {[1; 2]}]> (<["room2" := {[3]}]> ∅) |};
     trace := []; ticks := 0 |}.

(** Connections 1 and 2 on the broadcast endpoint. *)
Definition two_clients : World :=
  {| hub := {| clients := {[1; 2]}; rooms := ∅ |};
     trace := []; ticks := 0 |}.

(** The text of the JSON object that names its type [json_error] and has
    the data "hi". *)
Definition text_type_json_error : string :=
  "{" +:+ quote +:+ "type" +:+ quote +:+ ":" +:+ quote +:+ "json_error"
  +:+ quote +:+ "," +:+ quote +:+ "data" +:+ quote +:+ ":" +:+ quote +:+ "hi"
  +:+ quote +:+ "}".

(** The sample decoder, taught that text as well. *)
Definition sample_decode' (s : string) : Fields + string :=
  if String.eqb s text_type_json_error then
    inl {| f_type := Some "json_error"; f_data := Some (DString "hi");
           f_timestamp := None; f_room := None |}
  else sample_decode s.

(** ** A state monad over [World] *)

Definition M (A : Type) : Type := World → A * World.

Definition ret {A} (a : A) : M A := λ w, (a, w).

Definition bind {A B} (m : M A) (k : A → M B) : M B :=
  λ w, let (a, w') := m w in k a w'.

Notation "x <~ m ;; k" := (bind m (λ x, k))
  (at level 100, m at next level, right associativity).
Notation "m ;;; k" := (bind m (λ _, k))
  (at level 100, right associativity).

Definition get_hub : M WebSocketHandlers := λ w, (hub w, w).

Definition put_hub (h : WebSocketHandlers) : M unit :=
  λ w, (tt, {| hub := h; trace := trace w; ticks := ticks w |}).

Definition emit (e : Event) : M unit :=
  λ w, (tt, {| hub := hub w; trace := trace w ++ [e]; ticks := ticks w |}).

(** Control flow of a read loop's body, and how a handler stands when its
    inbox is used up. *)
Inductive Flow : Type := Continue | Break.

Inductive Status : Type :=
| Parked     (* blocked in ReadMessage, the session is still active *)
| Returned   (* the handler returned, its deferred calls have run *)
| Rejected.  (* refused before the upgrade *)

(** The two operations on rooms. *)
Inductive RoomOp : Type :=
| Join (c : Conn) (room : string)
| Leave (c : Conn) (room : string).

(** No room of the registry is empty. *)
Definition no_empty_room (h : WebSocketHandlers) : Prop :=
  ∀ room s, rooms h !! room = Some s → s ≠ ∅.

(** The specification's account of a room: the connections that have joined
    it and not left it since, read off the sequence of joins and leaves
    alone; [joined_from s] starts from the members [s]. *)
Fixpoint joined_from (s : gset Conn) (ops : list RoomOp) (room : string)
    : gset Conn :=
  match ops with
  | [] => s
  | Join c r :: rest =>
      joined_from (if decide (r = room) then {[c]} ∪ s else s) rest room
  | Leave c r :: rest =>
      joined_from (if decide (r = room) then s ∖ {[c]} else s) rest room
  end.

Definition joined (ops : list RoomOp) (room : string) : gset Conn :=
  joined_from ∅ ops room.

Section Handlers.

Variable clock : nat → Z.
Variable link : nat → Conn → bool.
Variable json_decode : string → Fields + string.

(** [time.Now().Unix()] *)
Definition now : M Z :=
  λ w, (clock (ticks w),
        {| hub := hub w; trace := trace w; ticks := S (ticks w) |}).

(** [json.Unmarshal(data, &msg)] *)
Definition Unmarshal (data : string) (msg : Message) : Message + string :=
  match json_decode data with
  | inl f => inl (fill f msg)
  | inr e => inr e
  end.

(** [safeReadJSON], on the result of its [ws.ReadMessage()]. *)
Definition safeReadJSON (r : ReadResult) : M (Message + string) :=
  match r with
  | RErr err => ret (inr err)
  | RFrame messageType data =>
      if negb (messageType =? TextMessage)%Z then
        t <~ now ;;
        ret (inl {| Type_ := "error";
                    Data := DString "Binary messages not supported";
                    Timestamp := t; Room := "" |})
      else
        match Unmarshal data zeroMessage with
        | inr e =>
            t <~ now ;;
            ret (inl {| Type_ := "json_error";
                        Data := DMap [("error", "Invalid JSON format");
                                      ("details", e);
                                      ("raw_data", data)];
                        Timestamp := t; Room := "" |})
        | inl msg =>
            if (Timestamp msg =? 0)%Z then
              t <~ now ;;
              ret (inl {| Type_ := Type_ msg; Data := Data msg;
                          Timestamp := t; Room := Room msg |})
            else ret (inl msg)
        end
  end.

(** [safeWriteJSON]: the write deadline bounds the wait; the outcome of the
    write is the link's. *)
Definition safeWriteJSON (ws : Conn) (data : Message) : M bool :=
  λ w, let ok := link (length (trace w)) ws in
       (ok, {| hub := hub w; trace := trace w ++ [EvWrite ws data ok];
               ticks := ticks w |}).

(** *** Registry *)

Definition addClient (conn : Conn) : M unit :=
  h <~ get_hub ;;
  put_hub {| clients := {[conn]} ∪ clients h; rooms := rooms h |}.

Definition removeClient (conn : Conn) : M unit :=
  h <~ get_hub ;;
  if decide (conn ∈ clients h) then
    put_hub {| clients := clients h ∖ {[conn]}; rooms := rooms h |} ;;;
    emit (EvClose conn)
  else ret tt.

Definition addToRoom (conn : Conn) (room : string) : M unit :=
  h <~ get_hub ;;
  let rs := match rooms h !! room with
            | None => <[room := ∅]> (rooms h)
            | Some _ => rooms h
            end in
  put_hub {| clients := clients h;
             rooms := alter (λ s, {[conn]} ∪ s) room rs |}.

Definition removeFromRoom (conn : Conn) (room : string) : M unit :=
  h <~ get_hub ;;
  (match rooms h !! room with
   | Some roomClients =>
       if decide (conn ∈ roomClients) then
         let rs := alter (λ s, s ∖ {[conn]}) room (rooms h) in
         put_hub {| clients := clients h;
                    rooms := if (size (default ∅ (rs !! room)) =? 0)%nat
                             then delete room rs else rs |}
       else ret tt
   | None => ret tt
   end) ;;;
  emit (EvClose conn).

(** A sequence of joins and leaves, as the sessions of a run issue them. *)
Definition run_op (op : RoomOp) : M unit :=
  match op with
  | Join c room => addToRoom c room
  | Leave c room => removeFromRoom c room
  end.

Fixpoint run_ops (ops : list RoomOp) : M unit :=
  match ops with
  | [] => ret tt
  | op :: rest => run_op op ;;; run_ops rest
  end.

(** *** Broadcast *)

(** The body of [for client := range ...]: one write per client, counting
    the successes. *)
Fixpoint fanout (cs : list Conn) (msg : Message) (successCount : nat) : M nat :=
  match cs with
  | [] => ret successCount
  | client :: rest =>
      ok <~ safeWriteJSON client msg ;;
      fanout rest msg (if ok then S successCount else successCount)
  end.

(** [broadcastToAll]; the result is what its last line logs,
    [(successCount, clientCount)], or [None] on the early return. *)
Definition broadcastToAll (msg : Message) : M (option (nat * nat)) :=
  h <~ get_hub ;;
  let clientCount := size (clients h) in
  if (clientCount =? 0)%nat then ret None
  else
    h' <~ get_hub ;;
    successCount <~ fanout (elements (clients h')) msg 0 ;;
    ret (Some (successCount, clientCount)).

(** [broadcastToRoom], likewise. *)
Definition broadcastToRoom (room : string) (msg : Message)
  : M (option (nat * nat)) :=
  h <~ get_hub ;;
  match rooms h !! room with
  | None => ret None
  | Some roomClients =>
      let clientCount := size roomClients in
      if (clientCount =? 0)%nat then ret None
      else
        h' <~ get_hub ;;
        successCount <~ fanout (elements (members room h')) msg 0 ;;
        ret (Some (successCount, clientCount))
  end.

(** *** Sessions *)

(** [for { msg, err := safeReadJSON(ws) ... }] over the frames that arrive. *)
Fixpoint read_loop (body : ReadResult → M Flow) (inbox : list ReadResult)
  : M Status :=
  match inbox with
  | [] => ret Parked
  | r :: rest =>
      f <~ body r ;;
      match f with
      | Continue => read_loop body rest
      | Break => ret Returned
      end
  end.

Definition flow_of (ok : bool) : Flow := if ok then Continue else Break.

(** One turn of the loop of [Echo]. *)
Definition Echo_body (ws : Conn) (r : ReadResult) : M Flow :=
  res <~ safeReadJSON r ;;
  match res with
  | inr _ => ret Break
  | inl msg =>
      if String.eqb (Type_ msg) "json_error" then
        ok <~ safeWriteJSON ws msg ;; ret (flow_of ok)
      else
        t <~ now ;;
        ok <~ safeWriteJSON ws {| Type_ := "echo"; Data := Data msg;
                                  Timestamp := t; Room := "" |} ;;
        ret (flow_of ok)
  end.

Definition Echo (ws : Conn) (inbox : list ReadResult) : M Status :=
  t <~ now ;;
  ok <~ safeWriteJSON ws
    {| Type_ := "welcome";
       Data := DString "Connected to Echo WebSocket. Send any JSON message to echo it back.";
       Timestamp := t; Room := "" |} ;;
  if ok then
    st <~ read_loop (Echo_body ws) inbox ;;
    match st with
    | Parked => ret Parked
    | _ => emit (EvClose ws) ;;; ret Returned
    end
  else emit (EvClose ws) ;;; ret Returned.

(** One turn of the loop of [Broadcast]. *)
Definition Broadcast_body (ws : Conn) (r : ReadResult) : M Flow :=
  res <~ safeReadJSON r ;;
  match res with
  | inr _ => ret Break
  | inl msg =>
      if String.eqb (Type_ msg) "json_error" then
        ok <~ safeWriteJSON ws msg ;; ret (flow_of ok)
      else
        t <~ now ;;
        broadcastToAll {| Type_ := "broadcast"; Data := Data msg;
                          Timestamp := t; Room := "" |} ;;;
        ret Continue
  end.

Definition Broadcast (ws : Conn) (inbox : list ReadResult) : M Status :=
  addClient ws ;;;
  t <~ now ;;
  safeWriteJSON ws
    {| Type_ := "welcome";
       Data := DString "Connected to Broadcast WebSocket. Your messages will be sent to all connected clients.";
       Timestamp := t; Room := "" |} ;;;
  st <~ read_loop (Broadcast_body ws) inbox ;;
  match st with
  | Parked => ret Parked
  | _ => removeClient ws ;;; ret Returned
  end.

(** One turn of the loop of [Chat]. *)
Definition Chat_body (ws : Conn) (room : string) (r : ReadResult) : M Flow :=
  res <~ safeReadJSON r ;;
  match res with
  | inr _ => ret Break
  | inl msg =>
      if String.eqb (Type_ msg) "json_error" then
        ok <~ safeWriteJSON ws {| Type_ := Type_ msg; Data := Data msg;
                                  Timestamp := Timestamp msg; Room := room |} ;;
        ret (flow_of ok)
      else
        t <~ now ;;
        broadcastToRoom room {| Type_ := "chat"; Data := Data msg;
                                Timestamp := t; Room := room |} ;;;
        ret Continue
  end.

(** [Chat] up to its loop: join the room, welcome the connection, announce
    it to the room. *)
Definition Chat_open (ws : Conn) (room : string) : M unit :=
  addToRoom ws room ;;;
  t <~ now ;;
  safeWriteJSON ws
    {| Type_ := "welcome";
       Data := DMap [("message", "Connected to room " +:+ room +:+ ". Send JSON messages to chat.")];
       Timestamp := t; Room := room |} ;;;
  t' <~ now ;;
  broadcastToRoom room
    {| Type_ := "join";
       Data := DMap [("message", "User joined room " +:+ room)];
       Timestamp := t'; Room := room |} ;;;
  ret tt.

Definition leaveMsg (room : string) (t : Z) : Message :=
  {| Type_ := "leave";
     Data := DMap [("message", "User left room " +:+ room)];
     Timestamp := t; Room := room |}.

(** [Chat] after its loop: the leave notice, then the deferred
    [removeFromRoom]. *)
Definition Chat_close (ws : Conn) (room : string) : M unit :=
  t <~ now ;;
  broadcastToRoom room (leaveMsg room t) ;;;
  removeFromRoom ws room.

Definition Chat (ws : Conn) (room : string) (inbox : list ReadResult)
  : M Status :=
  if String.eqb room "" then ret Rejected
  else
    Chat_open ws room ;;;
    st <~ read_loop (Chat_body ws room) inbox ;;
    match st with
    | Parked => ret Parked
    | _ => Chat_close ws room ;;; ret Returned
    end.

(** *** Vocabulary of the statements *)

(** The events of a [fanout] that starts when the trace has [k] events. *)
Fixpoint fan_events (k : nat) (cs : list Conn) (msg : Message) : list Event :=
  match cs with
  | [] => []
  | c :: rest => EvWrite c msg (link k c) :: fan_events (S k) rest msg
  end.

(** A world with more events at the end of its trace. *)
Definition extend (w : World) (evs : list Event) : World :=
  {| hub := hub w; trace := trace w ++ evs; ticks := ticks w |}.

(** A world that differs by clock readings and events only: the registry
    is the one of [w]. *)
Definition after (w : World) (n : nat) (evs : list Event) : World :=
  {| hub := hub w; trace := trace w ++ evs; ticks := n + ticks w |}.

(** An envelope's timestamp is the sender's own and not 0, or a reading of
    the clock. *)
Definition stamped (m : Message) : Prop :=
  Timestamp m ≠ 0%Z ∨ ∃ k, Timestamp m = clock k.

(** A write to a connection of [aud], of an envelope whose type is one of
    [types], stamped. *)
Definition sound_event (aud : gset Conn) (types : list string) (e : Event) : Prop :=
  match e with
  | EvWrite c m _ => c ∈ aud ∧ Type_ m ∈ types ∧ stamped m
  | EvClose _ => False
  end.

(** The envelope [safeReadJSON] makes of a text that does not decode. *)
Definition parse_error (data details : string) (t : Z) (room : string) : Message :=
  {| Type_ := "json_error";
     Data := DMap [("error", "Invalid JSON format");
                   ("details", details);
                   ("raw_data", data)];
     Timestamp := t; Room := room |}.

(** The fields of [f], the timestamp left out. *)
Definition without_timestamp (f : Fields) : Fields :=
  {| f_type := f_type f; f_data := f_data f; f_timestamp := None;
     f_room := f_room f |}.

(** The welcome and the join notice of [Chat]. *)
Definition welcomeMsg (room : string) (t : Z) : Message :=
  {| Type_ := "welcome";
     Data := DMap [("message", "Connected to room " +:+ room +:+ ". Send JSON messages to chat.")];
     Timestamp := t; Room := room |}.

Definition joinMsg (room : string) (t : Z) : Message :=
  {| Type_ := "join";
     Data := DMap [("message", "User joined room " +:+ room)];
     Timestamp := t; Room := room |}.

(** ** Facts *)

Lemma world_eta (w : World) :
  {| hub := hub w; trace := trace w; ticks := ticks w |} = w.
Proof. by destruct w. Qed.

Lemma fanout_spec (cs : list Conn) (msg : Message) (n : nat) (w : World) :
  fanout cs msg n w =
  (n + successes (fan_events (length (trace w)) cs msg),
   {| hub := hub w;
      trace := trace w ++ fan_events (length (trace w)) cs msg;
      ticks := ticks w |}).
Proof.
  revert n w. induction cs as [|c cs IH]; intros n w; simpl.
  - rewrite Nat.add_0_r, app_nil_r, world_eta. done.
  - unfold bind, safeWriteJSON. rewrite IH. simpl.
    rewrite length_app, Nat.add_1_r. simpl.
    rewrite <- app_assoc. simpl.
    destruct (link (length (trace w)) c); f_equal; lia.
Qed.

Lemma recipients_fan_events (k : nat) (cs : list Conn) (msg : Message) :
  recipients (fan_events k cs msg) = cs.
Proof.
  revert k. induction cs as [|c cs IH]; intros k; simpl; [done|].
  unfold recipients in *. simpl. by rewrite IH.
Qed.

Lemma messages_fan_events (k : nat) (cs : list Conn) (msg : Message) :
  Forall (λ m, m = msg) (messages (fan_events k cs msg)).
Proof.
  revert k. induction cs as [|c cs IH]; intros k; simpl.
  - constructor.
  - unfold messages in *. simpl. constructor; [done|]. apply IH.
Qed.

Lemma successes_failures_fan (k : nat) (cs : list Conn) (msg : Message) :
  successes (fan_events k cs msg) + failures (fan_events k cs msg) = length cs.
Proof.
  revert k. induction cs as [|c cs IH]; intros k; simpl; [done|].
  specialize (IH (S k)). destruct (link k c); simpl; lia.
Qed.

Lemma emitted_app (w w' : World) (evs : list Event) :
  trace w' = trace w ++ evs → emitted w w' = evs.
Proof. intros E. unfold emitted. rewrite E. by rewrite drop_app_length. Qed.

Lemma extend_nil (w : World) : extend w [] = w.
Proof. unfold extend. by rewrite app_nil_r, world_eta. Qed.

Lemma emitted_extend (w : World) (evs : list Event) :
  emitted w (extend w evs) = evs.
Proof. by apply emitted_app. Qed.

Lemma broadcastToAll_spec (msg : Message) (w : World) :
  let cs := elements (clients (hub w)) in
  let evs := fan_events (length (trace w)) cs msg in
  broadcastToAll msg w =
  (if (size (clients (hub w)) =? 0)%nat then None
   else Some (successes evs, size (clients (hub w))),
   extend w evs).
Proof.
  intros cs evs. unfold broadcastToAll, bind, get_hub.
  destruct (size (clients (hub w)) =? 0)%nat eqn:E.
  - apply Nat.eqb_eq, size_empty_iff in E.
    assert (cs = []) as Hcs.
    { subst cs. apply elements_empty_iff. done. }
    subst evs. rewrite Hcs. simpl. by rewrite extend_nil.
  - rewrite fanout_spec. done.
Qed.

Lemma broadcastToRoom_spec (room : string) (msg : Message) (w : World) :
  let cs := elements (members room (hub w)) in
  let evs := fan_events (length (trace w)) cs msg in
  broadcastToRoom room msg w =
  (if (size (members room (hub w)) =? 0)%nat then None
   else Some (successes evs, size (members room (hub w))),
   extend w evs).
Proof.
  intros cs evs. subst evs cs. unfold broadcastToRoom, bind, get_hub.
  destruct (rooms (hub w) !! room) as [s|] eqn:Hr.
  - assert (members room (hub w) = s) as Hm.
    { unfold members. by rewrite Hr. }
    rewrite !Hm.
    destruct (size s =? 0)%nat eqn:E.
    + apply Nat.eqb_eq, size_empty_iff, leibniz_equiv in E.
      rewrite E, elements_empty. simpl. by rewrite extend_nil.
    + rewrite fanout_spec, Hm. done.
  - assert (members room (hub w) = ∅) as Hm.
    { unfold members. by rewrite Hr. }
    rewrite !Hm, size_empty, elements_empty. simpl. by rewrite extend_nil.
Qed.

Lemma after_after (w : World) (n n' : nat) (evs evs' : list Event) :
  after (after w n evs) n' evs' = after w (n' + n) (evs ++ evs').
Proof. unfold after. simpl. f_equal; [by rewrite app_assoc | lia]. Qed.

Lemma after_0_nil (w : World) : after w 0 [] = w.
Proof. unfold after. simpl. by rewrite app_nil_r, world_eta. Qed.

Lemma extend_after (w : World) (evs : list Event) : extend w evs = after w 0 evs.
Proof. done. Qed.

Lemma emitted_after (w : World) (n : nat) (evs : list Event) :
  emitted w (after w n evs) = evs.
Proof. by apply emitted_app. Qed.

Lemma now_spec (w : World) : now w = (clock (ticks w), after w 1 []).
Proof. unfold now, after. simpl. by rewrite app_nil_r. Qed.

Lemma safeWriteJSON_spec (ws : Conn) (m : Message) (w : World) :
  safeWriteJSON ws m w =
  (link (length (trace w)) ws,
   after w 0 [EvWrite ws m (link (length (trace w)) ws)]).
Proof. done. Qed.

(** What [safeReadJSON] hands to the loop: a transport error and nothing
    else, or an envelope whose timestamp is the client's own, not 0, or the
    reading the clock gave. *)
Lemma safeReadJSON_cases (r : ReadResult) (w : World) :
  (∃ e, r = RErr e ∧ safeReadJSON r w = (inr e, w)) ∨
  (∃ msg, safeReadJSON r w = (inl msg, w) ∧ Timestamp msg ≠ 0%Z) ∨
  (∃ msg, safeReadJSON r w = (inl msg, after w 1 []) ∧
          Timestamp msg = clock (ticks w)).
Proof.
  destruct r as [mt data|e]; [|left; by exists e].
  right. unfold safeReadJSON.
  destruct (negb (mt =? TextMessage)%Z).
  { right. eexists. unfold bind, ret. rewrite now_spec. done. }
  destruct (Unmarshal data zeroMessage) as [msg|e].
  - destruct (Timestamp msg =? 0)%Z eqn:E.
    + right. eexists. unfold bind, ret. rewrite now_spec. done.
    + left. exists msg. split; [done|]. by apply Z.eqb_neq.
  - right. eexists. unfold bind, ret. rewrite now_spec. done.
Qed.

Lemma recipients_app (evs evs' : list Event) :
  recipients (evs ++ evs') = recipients evs ++ recipients evs'.
Proof. unfold recipients. apply omap_app. Qed.

Lemma messages_app (evs evs' : list Event) :
  messages (evs ++ evs') = messages evs ++ messages evs'.
Proof. unfold messages. apply omap_app. Qed.

Lemma trace_after_nil (w : World) (n : nat) : trace (after w n []) = trace w.
Proof. unfold after. simpl. apply app_nil_r. Qed.

Lemma broadcastToRoom_after (room : string) (msg : Message) (w : World) (n : nat) :
  (broadcastToRoom room msg (after w n [])).2 =
  after w n (fan_events (length (trace w)) (elements (members room (hub w))) msg).
Proof.
  pose proof (broadcastToRoom_spec room msg (after w n [])) as H.
  simpl in H. rewrite H. simpl.
  rewrite extend_after, after_after, app_nil_r. done.
Qed.

Lemma broadcastToAll_after (msg : Message) (w : World) (n : nat) :
  (broadcastToAll msg (after w n [])).2 =
  after w n (fan_events (length (trace w)) (elements (clients (hub w))) msg).
Proof.
  pose proof (broadcastToAll_spec msg (after w n [])) as H.
  simpl in H. rewrite H. simpl.
  rewrite extend_after, after_after, app_nil_r. done.
Qed.

Lemma safeWriteJSON_after (ws : Conn) (m : Message) (w : World) (n : nat) :
  safeWriteJSON ws m (after w n []) =
  (link (length (trace w)) ws,
   after w n [EvWrite ws m (link (length (trace w)) ws)]).
Proof.
  rewrite safeWriteJSON_spec, after_after, trace_after_nil. done.
Qed.

(** One turn of the chat loop, by what it does: it stops on a transport
    error; it answers its own connection with a [json_error] envelope; or it
    fans a [chat] envelope out to the members of the room. *)
Lemma Chat_body_cases (ws : Conn) (room : string) (r : ReadResult) (w : World) :
  (∃ e, r = RErr e ∧ Chat_body ws room r w = (Break, w)) ∨
  (∃ msg n,
      Chat_body ws room r w =
      (flow_of (link (length (trace w)) ws),
       after w n [EvWrite ws msg (link (length (trace w)) ws)]) ∧
      Type_ msg = "json_error" ∧ Room msg = room ∧
      (Timestamp msg ≠ 0%Z ∨ ∃ k, Timestamp msg = clock k)) ∨
  (∃ data k n,
      Chat_body ws room r w =
      (Continue,
       after w n (fan_events (length (trace w))
                    (elements (members room (hub w)))
                    {| Type_ := "chat"; Data := data;
                       Timestamp := clock k; Room := room |}))).
Proof.
  unfold Chat_body, bind.
  destruct (safeReadJSON_cases r w)
    as [(e & -> & ->)|[(msg & -> & Ht)|(msg & -> & Ht)]].
  - left. by exists e.
  - right. destruct (String.eqb (Type_ msg) "json_error") eqn:E.
    + left. rewrite safeWriteJSON_spec. eexists _, 0. split; [done|].
      simpl. apply String.eqb_eq in E. auto.
    + right. rewrite now_spec.
      exists (Data msg), (ticks w), 1.
      unfold ret. f_equal.
      pose proof (broadcastToRoom_after room
        {| Type_ := "chat"; Data := Data msg;
           Timestamp := clock (ticks w); Room := room |} w 1) as H.
      destruct (broadcastToRoom _ _ _) as [res w']. simpl in H. by subst w'.
  - right. destruct (String.eqb (Type_ msg) "json_error") eqn:E.
    + left. rewrite safeWriteJSON_after. eexists _, 1. split; [done|].
      simpl. apply String.eqb_eq in E. eauto.
    + right. rewrite now_spec, after_after. simpl.
      exists (Data msg), (S (ticks w)), 2.
      unfold ret. f_equal.
      pose proof (broadcastToRoom_after room
        {| Type_ := "chat"; Data := Data msg;
           Timestamp := clock (S (ticks w)); Room := room |} w 2) as H.
      destruct (broadcastToRoom _ _ _) as [res w']. simpl in H. by subst w'.
Qed.

(** One turn of the broadcast loop, likewise. *)
Lemma Broadcast_body_cases (ws : Conn) (r : ReadResult) (w : World) :
  (∃ e, r = RErr e ∧ Broadcast_body ws r w = (Break, w)) ∨
  (∃ msg n,
      Broadcast_body ws r w =
      (flow_of (link (length (trace w)) ws),
       after w n [EvWrite ws msg (link (length (trace w)) ws)]) ∧
      Type_ msg = "json_error" ∧
      (Timestamp msg ≠ 0%Z ∨ ∃ k, Timestamp msg = clock k)) ∨
  (∃ data k n,
      Broadcast_body ws r w =
      (Continue,
       after w n (fan_events (length (trace w))
                    (elements (clients (hub w)))
                    {| Type_ := "broadcast"; Data := data;
                       Timestamp := clock k; Room := "" |}))).
Proof.
  unfold Broadcast_body, bind.
  destruct (safeReadJSON_cases r w)
    as [(e & -> & ->)|[(msg & -> & Ht)|(msg & -> & Ht)]].
  - left. by exists e.
  - right. destruct (String.eqb (Type_ msg) "json_error") eqn:E.
    + left. rewrite safeWriteJSON_spec. exists msg, 0. split; [done|].
      apply String.eqb_eq in E. auto.
    + right. rewrite now_spec.
      exists (Data msg), (ticks w), 1.
      unfold ret. f_equal.
      pose proof (broadcastToAll_after
        {| Type_ := "broadcast"; Data := Data msg;
           Timestamp := clock (ticks w); Room := "" |} w 1) as H.
      destruct (broadcastToAll _ _) as [res w']. simpl in H. by subst w'.
  - right. destruct (String.eqb (Type_ msg) "json_error") eqn:E.
    + left. rewrite safeWriteJSON_after. exists msg, 1. split; [done|].
      apply String.eqb_eq in E. eauto.
    + right. rewrite now_spec, after_after. simpl.
      exists (Data msg), (S (ticks w)), 2.
      unfold ret. f_equal.
      pose proof (broadcastToAll_after
        {| Type_ := "broadcast"; Data := Data msg;
           Timestamp := clock (S (ticks w)); Room := "" |} w 2) as H.
      destruct (broadcastToAll _ _) as [res w']. simpl in H. by subst w'.
Qed.

(** One turn of the echo loop: a transport error, or one reply to the
    connection itself. *)
Lemma Echo_body_cases (ws : Conn) (r : ReadResult) (w : World) :
  (∃ e, r = RErr e ∧ Echo_body ws r w = (Break, w)) ∨
  (∃ msg n,
      Echo_body ws r w =
      (flow_of (link (length (trace w)) ws),
       after w n [EvWrite ws msg (link (length (trace w)) ws)]) ∧
      (Type_ msg = "json_error" ∨ Type_ msg = "echo") ∧
      (Timestamp msg ≠ 0%Z ∨ ∃ k, Timestamp msg = clock k)).
Proof.
  unfold Echo_body, bind.
  destruct (safeReadJSON_cases r w)
    as [(e & -> & ->)|[(msg & -> & Ht)|(msg & -> & Ht)]].
  - left. by exists e.
  - right. destruct (String.eqb (Type_ msg) "json_error") eqn:E.
    + rewrite safeWriteJSON_spec. exists msg, 0. split; [done|].
      apply String.eqb_eq in E. auto.
    + rewrite now_spec, safeWriteJSON_after. eexists _, 1.
      split; [done|]. simpl. eauto.
  - right. destruct (String.eqb (Type_ msg) "json_error") eqn:E.
    + rewrite safeWriteJSON_after. exists msg, 1. split; [done|].
      apply String.eqb_eq in E. eauto.
    + rewrite now_spec, after_after. simpl. rewrite app_nil_r.
      eexists _, 2. split; [done|]. simpl. eauto.
Qed.

(** *** The registry *)

Lemma addToRoom_spec (conn : Conn) (room : string) (w : World) :
  addToRoom conn room w =
  (tt, {| hub := {| clients := clients (hub w);
                    rooms := <[room := {[conn]} ∪ members room (hub w)]>
                               (rooms (hub w)) |};
          trace := trace w; ticks := ticks w |}).
Proof.
  unfold addToRoom, bind, get_hub, put_hub, members. simpl.
  destruct (rooms (hub w) !! room) as [s|] eqn:Hr; simpl.
  - do 3 f_equal. apply map_eq. intros r.
    destruct (decide (room = r)) as [->|Hne].
    + by rewrite lookup_alter_eq, lookup_insert_eq, Hr.
    + by rewrite lookup_alter_ne, lookup_insert_ne.
  - do 3 f_equal. by rewrite alter_insert_eq.
Qed.

Lemma removeFromRoom_spec (conn : Conn) (room : string) (w : World) :
  removeFromRoom conn room w =
  (tt, {| hub := {| clients := clients (hub w);
                    rooms :=
                      if decide (conn ∈ members room (hub w)) then
                        if decide (members room (hub w) ∖ {[conn]} = ∅)
                        then delete room (rooms (hub w))
                        else <[room := members room (hub w) ∖ {[conn]}]>
                               (rooms (hub w))
                      else rooms (hub w) |};
          trace := trace w ++ [EvClose conn]; ticks := ticks w |}).
Proof.
  unfold removeFromRoom, bind, get_hub, put_hub, emit, ret, members.
  destruct w as [[cl rs] tr tk]. simpl.
  destruct (rs !! room) as [s|] eqn:Hr; simpl.
  - destruct (decide (conn ∈ s)) as [Hin|Hout]; simpl; [|done].
    rewrite lookup_alter_eq, Hr. simpl.
    destruct (decide (s ∖ {[conn]} = ∅)) as [He|Hne].
    + rewrite He, size_empty. simpl. by rewrite delete_alter_eq.
    + destruct (size (s ∖ {[conn]}) =? 0)%nat eqn:E.
      * apply Nat.eqb_eq, size_empty_iff, leibniz_equiv in E. done.
      * do 3 f_equal. apply map_eq. intros r.
        destruct (decide (room = r)) as [->|Hr'].
        -- by rewrite lookup_alter_eq, lookup_insert_eq, Hr.
        -- by rewrite lookup_alter_ne, lookup_insert_ne.
  - rewrite decide_False; [done|]. apply not_elem_of_empty.
Qed.

Lemma addToRoom_no_empty (conn : Conn) (room : string) (w : World) :
  no_empty_room (hub w) → no_empty_room (hub (addToRoom conn room w).2).
Proof.
  intros Hinv. rewrite addToRoom_spec. intros r s. simpl.
  destruct (decide (room = r)) as [->|Hne].
  - rewrite lookup_insert_eq. intros [= <-] He.
    apply (not_elem_of_empty (C:=gset nat) conn). rewrite <- He.
    by apply elem_of_union_l, elem_of_singleton_2.
  - rewrite lookup_insert_ne by done. apply Hinv.
Qed.

Lemma removeFromRoom_no_empty (conn : Conn) (room : string) (w : World) :
  no_empty_room (hub w) → no_empty_room (hub (removeFromRoom conn room w).2).
Proof.
  intros Hinv. rewrite removeFromRoom_spec. intros r s. simpl.
  destruct (decide (conn ∈ members room (hub w))); [|apply Hinv].
  destruct (decide (members room (hub w) ∖ {[conn]} = ∅)) as [He|Hne].
  - destruct (decide (room = r)) as [->|Hr].
    + by rewrite lookup_delete_eq.
    + rewrite lookup_delete_ne by done. apply Hinv.
  - destruct (decide (room = r)) as [->|Hr].
    + rewrite lookup_insert_eq. by intros [= <-].
    + rewrite lookup_insert_ne by done. apply Hinv.
Qed.

Lemma run_ops_no_empty (ops : list RoomOp) (w : World) :
  no_empty_room (hub w) → no_empty_room (hub (run_ops ops w).2).
Proof.
  revert w. induction ops as [|op ops IH]; intros w Hinv; simpl; [done|].
  unfold bind. destruct (run_op op w) as [u w1] eqn:E.
  apply IH. replace w1 with (run_op op w).2 by by rewrite E.
  destruct op; simpl.
  - by apply addToRoom_no_empty.
  - by apply removeFromRoom_no_empty.
Qed.

Lemma initial_no_empty : no_empty_room (hub initial).
Proof. intros r s. simpl. by rewrite lookup_empty. Qed.

(** *** Delivery *)

Lemma size_elements (s : gset Conn) : size s = length (elements s).
Proof. done. Qed.

(** What one fan-out over [cs] leaves behind, read off its events. *)
Lemma fan_events_delivery (k : nat) (cs : list Conn) (msg : Message) :
  let evs := fan_events k cs msg in
  recipients evs = cs ∧
  Forall (λ m, m = msg) (messages evs) ∧
  successes evs + failures evs = length cs.
Proof.
  split; [apply recipients_fan_events|].
  split; [apply messages_fan_events | apply successes_failures_fan].
Qed.

(** C3. A broadcast, global or to a room, writes the envelope once to every
    connection of the membership it reads, whichever of the writes fail;
    the count it reports is the number of writes that succeeded; and the
    registry after it is the registry before it. *)
Theorem delivery_survives_failed_writes (room : string) (msg : Message) (w : World) :
  let all := broadcastToAll msg w in
  let one := broadcastToRoom room msg w in
  (hub all.2 = hub w ∧
   recipients (emitted w all.2) ≡ₚ elements (clients (hub w)) ∧
   Forall (λ m, m = msg) (messages (emitted w all.2)) ∧
   successes (emitted w all.2) + failures (emitted w all.2)
     = size (clients (hub w)) ∧
   all.1 = if (size (clients (hub w)) =? 0)%nat then None
           else Some (successes (emitted w all.2), size (clients (hub w)))) ∧
  (hub one.2 = hub w ∧
   recipients (emitted w one.2) ≡ₚ elements (members room (hub w)) ∧
   Forall (λ m, m = msg) (messages (emitted w one.2)) ∧
   successes (emitted w one.2) + failures (emitted w one.2)
     = size (members room (hub w)) ∧
   one.1 = if (size (members room (hub w)) =? 0)%nat then None
           else Some (successes (emitted w one.2), size (members room (hub w)))).
Proof.
  intros all one. subst all one.
  rewrite broadcastToAll_spec, broadcastToRoom_spec. simpl.
  rewrite !emitted_extend, !size_elements.
  split.
  - destruct (fan_events_delivery (length (trace w))
                (elements (clients (hub w))) msg) as (Hr & Hm & Hc).
    rewrite Hr. by repeat split.
  - destruct (fan_events_delivery (length (trace w))
                (elements (members room (hub w))) msg) as (Hr & Hm & Hc).
    rewrite Hr. by repeat split.
Qed.

(** *** Sessions *)

Lemma sound_event_mono (aud aud' : gset Conn) (types types' : list string) (e : Event) :
  aud ⊆ aud' → types ⊆ types' →
  sound_event aud types e → sound_event aud' types' e.
Proof.
  intros Ha Ht. destruct e as [c m ok|c]; simpl; [|done].
  intros (Hc & Hty & Hs). split; [by apply Ha|]. split; [by apply Ht|done].
Qed.

Lemma fan_events_sound (aud : gset Conn) (types : list string)
    (k : nat) (cs : list Conn) (msg : Message) :
  (∀ c, c ∈ cs → c ∈ aud) → Type_ msg ∈ types → stamped msg →
  Forall (sound_event aud types) (fan_events k cs msg).
Proof.
  intros Hcs Hty Hs. revert k.
  induction cs as [|c cs IH]; intros k; simpl; constructor.
  - simpl. split; [apply Hcs; by left|done].
  - apply IH. intros c' Hc'. apply Hcs. by right.
Qed.

Lemma now_at (w : World) (n : nat) (evs : list Event) :
  now (after w n evs) = (clock (n + ticks w), after w (S n) evs).
Proof. done. Qed.

Lemma safeWriteJSON_at (ws : Conn) (m : Message) (w : World) (n : nat)
    (evs : list Event) :
  safeWriteJSON ws m (after w n evs) =
  (link (length (trace w ++ evs)) ws,
   after w n (evs ++ [EvWrite ws m (link (length (trace w ++ evs)) ws)])).
Proof. rewrite safeWriteJSON_spec, after_after. done. Qed.

Lemma broadcastToRoom_at (room : string) (msg : Message) (w : World) (n : nat)
    (evs : list Event) :
  (broadcastToRoom room msg (after w n evs)).2 =
  after w n (evs ++ fan_events (length (trace w ++ evs))
                      (elements (members room (hub w))) msg).
Proof.
  pose proof (broadcastToRoom_spec room msg (after w n evs)) as H.
  simpl in H. rewrite H. simpl.
  rewrite extend_after, after_after. done.
Qed.

(** A loop whose every turn leaves the registry alone and emits sound events
    does so as a whole, and never reports [Rejected]. *)
Lemma read_loop_sound (body : ReadResult → M Flow)
    (aud : WebSocketHandlers → gset Conn) (types : list string) :
  (∀ r w, ∃ f n evs, body r w = (f, after w n evs) ∧
                     Forall (sound_event (aud (hub w)) types) evs) →
  ∀ inbox w, ∃ st n evs,
    read_loop body inbox w = (st, after w n evs) ∧
    (st = Parked ∨ st = Returned) ∧
    Forall (sound_event (aud (hub w)) types) evs.
Proof.
  intros Hbody inbox. induction inbox as [|r rest IH]; intros w; simpl.
  - exists Parked, 0, []. rewrite after_0_nil. by repeat split; auto.
  - unfold bind. destruct (Hbody r w) as (f & n & evs & -> & Hevs).
    destruct f.
    + destruct (IH (after w n evs)) as (st & n' & evs' & -> & Hst & Hevs').
      exists st, (n' + n), (evs ++ evs'). rewrite after_after.
      repeat split; [done|]. apply Forall_app. split; done.
    + exists Returned, n, evs. repeat split; auto.
Qed.

Lemma Chat_body_sound (ws : Conn) (room : string) (r : ReadResult) (w : World) :
  ∃ f n evs, Chat_body ws room r w = (f, after w n evs) ∧
    Forall (sound_event ({[ws]} ∪ members room (hub w)) ["json_error"; "chat"]) evs.
Proof.
  destruct (Chat_body_cases ws room r w)
    as [(e & _ & ->)|[(msg & n & -> & Hty & _ & Hs)|(data & k & n & ->)]].
  - exists Break, 0, []. by rewrite after_0_nil.
  - eexists _, n, _. split; [done|]. constructor; [|constructor].
    simpl. split; [by apply elem_of_union_l, elem_of_singleton_2|].
    split; [|done]. rewrite Hty. by left.
  - eexists _, n, _. split; [done|]. apply fan_events_sound.
    + intros c Hc. apply elem_of_elements in Hc. by apply elem_of_union_r.
    + simpl. right. by left.
    + right. by exists k.
Qed.

Lemma addToRoom_members (conn : Conn) (room : string) (w : World) :
  members room (hub (addToRoom conn room w).2) = {[conn]} ∪ members room (hub w).
Proof.
  rewrite addToRoom_spec. unfold members at 1. simpl.
  by rewrite lookup_insert_eq.
Qed.

Lemma removeFromRoom_members (conn : Conn) (room : string) (w : World) :
  members room (hub (removeFromRoom conn room w).2) =
  members room (hub w) ∖ {[conn]}.
Proof.
  rewrite removeFromRoom_spec. unfold members at 1. simpl.
  destruct (decide (conn ∈ members room (hub w))) as [Hin|Hout].
  - destruct (decide (members room (hub w) ∖ {[conn]} = ∅)) as [He|Hne].
    + by rewrite lookup_delete_eq, He.
    + by rewrite lookup_insert_eq.
  - fold (members room (hub w)). apply leibniz_equiv.
    intros x. rewrite elem_of_difference, elem_of_singleton.
    split; [|by intros [Hx _]]. intros Hx. split; [done|]. by intros ->.
Qed.

Lemma addToRoom_members_ne (conn : Conn) (room other : string) (w : World) :
  room ≠ other →
  members other (hub (addToRoom conn room w).2) = members other (hub w).
Proof.
  intros Hne. rewrite addToRoom_spec. unfold members at 1. simpl.
  by rewrite lookup_insert_ne.
Qed.

Lemma removeFromRoom_members_ne (conn : Conn) (room other : string)
    (w : World) :
  room ≠ other →
  members other (hub (removeFromRoom conn room w).2) = members other (hub w).
Proof.
  intros Hne. rewrite removeFromRoom_spec. unfold members at 1. simpl.
  destruct (decide (conn ∈ members room (hub w))); [|done].
  destruct (decide (members room (hub w) ∖ {[conn]} = ∅)).
  - by rewrite lookup_delete_ne.
  - by rewrite lookup_insert_ne.
Qed.

(** The members of a room after a sequence of joins and leaves are the
    connections the sequence leaves joined. *)
Lemma run_ops_members (ops : list RoomOp) (room : string) (w : World) :
  members room (hub (run_ops ops w).2) =
  joined_from (members room (hub w)) ops room.
Proof.
  revert w. induction ops as [|op ops IH]; intros w; [done|].
  cbn [run_ops]. unfold bind. destruct (run_op op w) as [u w1] eqn:E.
  rewrite IH. replace w1 with (run_op op w).2 by by rewrite E.
  clear E. destruct op as [c r|c r]; cbn [joined_from run_op].
  - destruct (decide (r = room)) as [->|Hne].
    + by rewrite addToRoom_members.
    + by rewrite addToRoom_members_ne.
  - destruct (decide (r = room)) as [->|Hne].
    + by rewrite removeFromRoom_members.
    + by rewrite removeFromRoom_members_ne.
Qed.

(** Where no room is empty, the entry of a room is read off its members. *)
Lemma entry_of_members (room : string) (h : WebSocketHandlers) :
  no_empty_room h →
  rooms h !! room =
  if decide (members room h = ∅) then None else Some (members room h).
Proof.
  intros Hinv. unfold members.
  destruct (rooms h !! room) as [s|] eqn:Hr; simpl.
  - rewrite decide_False; [done|]. by apply (Hinv room).
  - by rewrite decide_True.
Qed.

(** C2. Whatever joins and leaves have run since the registry was created,
    the members of a room are the connections that joined it and have not
    left it since, and the room has an entry, holding exactly them, exactly
    when there is such a connection. From there a join puts the connection
    among the members it finds, creating the entry if the room had none; a
    leave takes the connection out and deletes the entry if nobody is left;
    and a broadcast to the room after the leave of its last member finds
    nobody and returns, the world untouched. *)
Theorem room_entry_iff_member (ops : list RoomOp) (room : string) :
  let w := (run_ops ops initial).2 in
  members room (hub w) = joined ops room ∧
  rooms (hub w) !! room =
    (if decide (joined ops room = ∅) then None else Some (joined ops room)) ∧
  (is_Some (rooms (hub w) !! room) ↔ joined ops room ≠ ∅) ∧
  (∀ s, rooms (hub w) !! room = Some s → s ≠ ∅) ∧
  (is_Some (rooms (hub w) !! room) ↔ members room (hub w) ≠ ∅) ∧
  (∀ c, rooms (hub (addToRoom c room w).2) !! room =
        Some ({[c]} ∪ members room (hub w))) ∧
  (∀ c, rooms (hub w) !! room = None →
        rooms (hub (addToRoom c room w).2) !! room = Some {[c]}) ∧
  (∀ c, rooms (hub (removeFromRoom c room w).2) !! room =
        if decide (members room (hub w) ∖ {[c]} = ∅) then None
        else Some (members room (hub w) ∖ {[c]})) ∧
  (∀ c msg, members room (hub w) = {[c]} →
        let w' := (removeFromRoom c room w).2 in
        rooms (hub w') !! room = None ∧
        members room (hub w') = ∅ ∧
        broadcastToRoom room msg w' = (None, w')).
Proof.
  intros w.
  assert (no_empty_room (hub w)) as Hinv.
  { apply run_ops_no_empty, initial_no_empty. }
  assert (members room (hub w) = joined ops room) as Hm.
  { unfold w, joined. rewrite run_ops_members. unfold members. simpl.
    by rewrite lookup_empty. }
  assert (rooms (hub w) !! room =
          if decide (joined ops room = ∅) then None
          else Some (joined ops room)) as He.
  { rewrite <- Hm. by apply entry_of_members. }
  split; [done|]. split; [done|]. split.
  { rewrite He. destruct (decide (joined ops room = ∅)) as [E|E].
    - split; [by intros [s Hs]|done].
    - split; [done|eauto]. }
  split; [apply Hinv|]. split.
  { unfold members. split.
    - intros [s Hs]. rewrite Hs. simpl. by apply (Hinv room).
    - destruct (rooms (hub w) !! room); [eauto|done]. }
  split.
  { intros c. rewrite addToRoom_spec. simpl. by rewrite lookup_insert_eq. }
  split.
  { intros c Hnone. rewrite addToRoom_spec. simpl.
    rewrite lookup_insert_eq. unfold members. rewrite Hnone. simpl.
    by rewrite union_empty_r_L. }
  split.
  { intros c.
    rewrite (entry_of_members room _ (removeFromRoom_no_empty c room w Hinv)).
    by rewrite removeFromRoom_members. }
  intros c msg Hone w'. subst w'. rewrite removeFromRoom_spec. simpl.
  rewrite Hone.
  rewrite decide_True by by apply elem_of_singleton_2.
  rewrite decide_True by apply difference_diag_L.
  assert (rooms (hub
     {| hub := {| clients := clients (hub w);
                  rooms := delete room (rooms (hub w)) |};
        trace := trace w ++ [EvClose c]; ticks := ticks w |}) !! room = None)
    as Hgone by (simpl; apply lookup_delete_eq).
  split; [done|].
  assert (members room (hub
     {| hub := {| clients := clients (hub w);
                  rooms := delete room (rooms (hub w)) |};
        trace := trace w ++ [EvClose c]; ticks := ticks w |}) = ∅) as Hm'.
  { unfold members. by rewrite Hgone. }
  split; [done|].
  rewrite broadcastToRoom_spec. rewrite Hm', size_empty, elements_empty.
  simpl. by rewrite extend_nil.
Qed.

Lemma removeFromRoom_trace (conn : Conn) (room : string) (w : World) :
  trace (removeFromRoom conn room w).2 = trace w ++ [EvClose conn].
Proof. by rewrite removeFromRoom_spec. Qed.

(** The closing sequence of [Chat]: the leave notice goes to the members the
    room has at that moment, then the connection leaves the room and is
    closed. *)
Lemma Chat_close_spec (ws : Conn) (room : string) (w : World) :
  Chat_close ws room w =
  removeFromRoom ws room
    (after w 1 (fan_events (length (trace w))
                  (elements (members room (hub w)))
                  (leaveMsg room (clock (ticks w))))).
Proof.
  unfold Chat_close, bind. rewrite now_spec.
  pose proof (broadcastToRoom_after room (leaveMsg room (clock (ticks w))) w 1)
    as H.
  destruct (broadcastToRoom _ _ _) as [res w']. simpl in H. by subst w'.
Qed.

(** The opening sequence of [Chat]: the connection joins, is welcomed, and
    the room (the connection included) is told of the join. *)
Lemma Chat_open_spec (ws : Conn) (room : string) (w : World) :
  let w1 := (addToRoom ws room w).2 in
  ∃ evs, Chat_open ws room w = (tt, after w1 2 evs) ∧
         Forall (sound_event ({[ws]} ∪ members room (hub w)) ["welcome"; "join"]) evs.
Proof.
  cbv zeta. unfold Chat_open, bind.
  pose proof (addToRoom_members ws room w) as Hm.
  destruct (addToRoom ws room w) as [[] w1]. simpl in Hm. simpl snd.
  rewrite now_spec, safeWriteJSON_at, now_at.
  match goal with |- context [broadcastToRoom room ?m (after w1 2 ?evs)] =>
    pose proof (broadcastToRoom_at room m w1 2 evs) as H end.
  destruct (broadcastToRoom _ _ _) as [res w2]. simpl in H. subst w2.
  eexists. split; [done|]. rewrite Hm.
  simpl. constructor.
  - simpl. split; [by apply elem_of_union_l, elem_of_singleton_2|].
    split; [by left|]. right. by eexists.
  - apply fan_events_sound.
    + intros c Hc. by apply elem_of_elements in Hc.
    + simpl. right. by left.
    + right. by eexists.
Qed.

Lemma addToRoom_trace (conn : Conn) (room : string) (w : World) :
  trace (addToRoom conn room w).2 = trace w.
Proof. by rewrite addToRoom_spec. Qed.

(** A whole chat session, by its trace: while it is parked in a read, the
    welcome, the join notice and the replies and chat envelopes of its
    turns, all to the connection or to members of its room; once it has
    returned, these, then the leave notice to the members the room had with
    the connection still among them, then the close of the connection. *)
Lemma Chat_trace (ws : Conn) (room : string) (inbox : list ReadResult) (w : World) :
  room ≠ "" →
  let aud := {[ws]} ∪ members room (hub w) in
  let res := Chat ws room inbox w in
  ∃ evs,
    Forall (sound_event aud ["welcome"; "join"; "json_error"; "chat"]) evs ∧
    ((res.1 = Parked ∧ trace res.2 = trace w ++ evs ∧
      members room (hub res.2) = aud) ∨
     (res.1 = Returned ∧ members room (hub res.2) = aud ∖ {[ws]} ∧
      ∃ k t, trace res.2 =
             trace w ++ evs ++
             fan_events k (elements aud) (leaveMsg room (clock t)) ++
             [EvClose ws])).
Proof.
  intros Hroom. cbv zeta. unfold Chat.
  rewrite (proj2 (String.eqb_neq _ _) Hroom). unfold bind.
  destruct (Chat_open_spec ws room w) as (evs0 & -> & H0).
  pose proof (addToRoom_members ws room w) as Hm.
  pose proof (addToRoom_trace ws room w) as Htr.
  revert Hm Htr. generalize ((addToRoom ws room w).2). intros w1 Hm Htr.
  destruct (read_loop_sound (Chat_body ws room)
              (λ h, {[ws]} ∪ members room h) ["json_error"; "chat"]
              (Chat_body_sound ws room) inbox (after w1 2 evs0))
    as (st & n & evs1 & -> & Hst & H1).
  rewrite after_after.
  change (hub (after w1 2 evs0)) with (hub w1) in H1. rewrite Hm in H1.
  assert (Forall (sound_event ({[ws]} ∪ members room (hub w))
                    ["welcome"; "join"; "json_error"; "chat"]) (evs0 ++ evs1))
    as Hall.
  { apply Forall_app. split.
    - eapply Forall_impl; [exact H0|]. intros e. apply sound_event_mono.
      + done.
      + intros x Hx. apply list_elem_of_In in Hx. apply list_elem_of_In.
        simpl in *. tauto.
    - eapply Forall_impl; [exact H1|]. intros e. apply sound_event_mono.
      + intros x. rewrite !elem_of_union. tauto.
      + intros x Hx. apply list_elem_of_In in Hx. apply list_elem_of_In.
        simpl in *. tauto. }
  exists (evs0 ++ evs1). split; [exact Hall|].
  destruct Hst as [-> | ->].
  - left. unfold ret, after. simpl. by rewrite Htr, Hm.
  - right. rewrite Chat_close_spec.
    match goal with |- context [removeFromRoom ws room ?x] =>
      pose proof (removeFromRoom_members ws room x) as Hm';
      pose proof (removeFromRoom_trace ws room x) as Htr';
      destruct (removeFromRoom ws room x) as [[] w3] end.
    unfold ret, after in *. simpl in *. rewrite Hm', Htr', Htr, Hm.
    split; [done|]. split; [done|].
    eexists _, _. by rewrite <- !app_assoc.
Qed.

Lemma sound_recipients (aud : gset Conn) (types : list string) (evs : list Event) :
  Forall (sound_event aud types) evs → ∀ c, c ∈ recipients evs → c ∈ aud.
Proof.
  induction 1 as [|e evs He _ IH]; intros c Hc.
  - by apply elem_of_nil in Hc.
  - destruct e as [c' m ok|c']; simpl in He; [|done].
    unfold recipients in Hc. simpl in Hc.
    apply elem_of_cons in Hc as [->|Hc]; [tauto|]. by apply IH.
Qed.

Lemma emitted_same (w : World) : emitted w w = [].
Proof. unfold emitted. apply drop_all. Qed.

(** C8. An envelope sent to room A, by [broadcastToRoom], by a turn of the
    loop of a chat session held in A, or anywhere in such a session, is
    written only to members of A (the session's own connection is one from
    the moment it joins): a connection that is not in A, whatever other
    room it is in, is written nothing. *)
Theorem room_isolation (ws : Conn) (A : string) (msg : Message) (r : ReadResult)
    (inbox : list ReadResult) (w : World) (d : Conn) :
  d ∉ members A (hub w) → d ≠ ws →
  (d ∉ recipients (emitted w (broadcastToRoom A msg w).2)) ∧
  (d ∉ recipients (emitted w (Chat_body ws A r w).2)) ∧
  (d ∉ recipients (emitted w (Chat ws A inbox w).2)).
Proof.
  intros HdA Hdws.
  assert (d ∉ ({[ws]} ∪ members A (hub w) : gset Conn)) as Hd.
  { rewrite elem_of_union, elem_of_singleton. tauto. }
  split; [|split].
  - rewrite broadcastToRoom_spec. simpl.
    rewrite emitted_extend, recipients_fan_events.
    by rewrite elem_of_elements.
  - destruct (Chat_body_sound ws A r w) as (f & n & evs & -> & Hevs).
    simpl. rewrite emitted_after. intros Hin.
    by apply Hd, (sound_recipients _ _ _ Hevs).
  - destruct (decide (A = "")) as [->|HA].
    { unfold Chat. simpl. unfold ret. simpl. rewrite emitted_same.
      apply not_elem_of_nil. }
    destruct (Chat_trace ws A inbox w HA) as (evs & Hevs & Hcase).
    pose proof (sound_recipients _ _ _ Hevs) as Hrec.
    destruct Hcase as [(_ & Htr & _)|(_ & _ & k & t & Htr)].
    + rewrite (emitted_app _ _ _ Htr). intros Hin. by apply Hd, Hrec.
    + rewrite (emitted_app _ _ _ Htr).
      rewrite !recipients_app, recipients_fan_events.
      rewrite !elem_of_app, elem_of_elements.
      intros [Hin|[Hin|Hin]].
      * by apply Hd, Hrec.
      * done.
      * unfold recipients in Hin. simpl in Hin. by apply elem_of_nil in Hin.
Qed.

(** *** Closing twice *)

Lemma leave_notices_app (d : Conn) (evs evs' : list Event) :
  leave_notices d (evs ++ evs') = leave_notices d evs + leave_notices d evs'.
Proof.
  induction evs as [|[c m ok|c] evs IH]; simpl; [done| |done].
  destruct ((c =? d)%nat && String.eqb (Type_ m) "leave"); simpl; lia.
Qed.

Lemma leave_notices_sound (d : Conn) (aud : gset Conn) (types : list string)
    (evs : list Event) :
  "leave" ∉ types → Forall (sound_event aud types) evs →
  leave_notices d evs = 0.
Proof.
  intros Hty. induction 1 as [|[c m ok|c] evs He _ IH]; simpl; [done| |done].
  destruct He as (_ & Hm & _).
  destruct (String.eqb (Type_ m) "leave") eqn:E.
  - apply String.eqb_eq in E. rewrite E in Hm. done.
  - by rewrite andb_false_r.
Qed.

Lemma leave_notices_absent (d : Conn) (k : nat) (cs : list Conn) (msg : Message) :
  d ∉ cs → leave_notices d (fan_events k cs msg) = 0.
Proof.
  revert k. induction cs as [|c cs IH]; intros k Hd; simpl; [done|].
  apply not_elem_of_cons in Hd as [Hne Hd].
  destruct (c =? d)%nat eqn:E.
  - apply Nat.eqb_eq in E. congruence.
  - simpl. by apply IH.
Qed.

Lemma leave_notices_fan (d : Conn) (k : nat) (cs : list Conn) (msg : Message) :
  NoDup cs → leave_notices d (fan_events k cs msg) ≤ 1.
Proof.
  intros Hnd. revert k. induction Hnd as [|c cs Hc Hnd IH]; intros k; simpl.
  - lia.
  - destruct (c =? d)%nat eqn:E; simpl; [|apply IH].
    apply Nat.eqb_eq in E. subst c.
    destruct (String.eqb (Type_ msg) "leave"); [|apply IH].
    rewrite leave_notices_absent by done. lia.
Qed.

Lemma removeClient_spec (conn : Conn) (w : World) :
  removeClient conn w =
  if decide (conn ∈ clients (hub w)) then
    (tt, {| hub := {| clients := clients (hub w) ∖ {[conn]};
                      rooms := rooms (hub w) |};
            trace := trace w ++ [EvClose conn]; ticks := ticks w |})
  else (tt, w).
Proof.
  unfold removeClient, bind, get_hub.
  by destruct (decide (conn ∈ clients (hub w))).
Qed.

(** C9. Closing what is closed already changes nothing: [removeClient] on
    a connection that is not in the client set returns the world as it is,
    no second [Close] included, so that running it twice is running it
    once; [removeFromRoom] on a connection that is not in the room leaves
    rooms and clients as they are, so that the registry after two calls is
    the registry after one; and a chat session writes no connection more
    than one leave notice: none when it opens, none in a turn of its loop,
    at most one when it closes, and at most one over the whole session. *)
Theorem close_is_idempotent (c ws d : Conn) (room : string) (r : ReadResult)
    (inbox : list ReadResult) (w : World) :
  (c ∉ clients (hub w) → removeClient c w = (tt, w)) ∧
  removeClient c (removeClient c w).2 = (tt, (removeClient c w).2) ∧
  (c ∉ members room (hub w) → hub (removeFromRoom c room w).2 = hub w) ∧
  hub (removeFromRoom c room (removeFromRoom c room w).2).2
    = hub (removeFromRoom c room w).2 ∧
  leave_notices d (emitted w (Chat_open ws room w).2) = 0 ∧
  leave_notices d (emitted w (Chat_body ws room r w).2) = 0 ∧
  leave_notices d (emitted w (Chat_close ws room w).2) ≤ 1 ∧
  leave_notices d (emitted w (Chat ws room inbox w).2) ≤ 1.
Proof.
  assert (∀ w', c ∉ clients (hub w') → removeClient c w' = (tt, w')) as Hrc.
  { intros w' Hc. rewrite removeClient_spec. by rewrite decide_False. }
  assert (∀ w', c ∉ members room (hub w') →
                hub (removeFromRoom c room w').2 = hub w') as Hrr.
  { intros w' Hc. rewrite removeFromRoom_spec. simpl.
    rewrite decide_False by done. by destruct (hub w'). }
  split; [apply Hrc|]. split; [|split; [apply Hrr|split; [|split; [|split; [|split]]]]].
  - apply Hrc. rewrite removeClient_spec.
    destruct (decide (c ∈ clients (hub w))) as [Hin|Hout]; simpl; [|done].
    rewrite elem_of_difference, elem_of_singleton. tauto.
  - apply Hrr. rewrite removeFromRoom_members.
    rewrite elem_of_difference, elem_of_singleton. tauto.
  - destruct (Chat_open_spec ws room w) as (evs & -> & Hevs).
    pose proof (addToRoom_trace ws room w) as Htr.
    assert (emitted w (after (addToRoom ws room w).2 2 evs) = evs) as Hem.
    { apply emitted_app. unfold after. cbn [trace]. by rewrite Htr. }
    cbn [snd]. rewrite Hem.
    eapply leave_notices_sound; [|exact Hevs].
    intros Hin. apply list_elem_of_In in Hin. simpl in Hin.
    destruct Hin as [H|[H|[]]]; discriminate H.
  - destruct (Chat_body_sound ws room r w) as (f & n & evs & -> & Hevs).
    simpl. rewrite emitted_after.
    eapply leave_notices_sound; [|exact Hevs].
    intros Hin. apply list_elem_of_In in Hin. simpl in Hin.
    destruct Hin as [H|[H|[]]]; discriminate H.
  - rewrite Chat_close_spec.
    match goal with |- context [removeFromRoom ws room ?x] =>
      pose proof (removeFromRoom_trace ws room x) as Htr end.
    unfold after in Htr at 2. cbn [trace] in Htr. rewrite <- app_assoc in Htr.
    rewrite (emitted_app _ _ _ Htr), leave_notices_app. simpl.
    pose proof (leave_notices_fan d (length (trace w))
      (elements (members room (hub w)))
      (leaveMsg room (clock (ticks w))) (NoDup_elements _)). lia.
  - destruct (decide (room = "")) as [->|Hroom].
    { unfold Chat. simpl. unfold ret. simpl. rewrite emitted_same.
      simpl. lia. }
    destruct (Chat_trace ws room inbox w Hroom) as (evs & Hevs & Hcase).
    assert (leave_notices d evs = 0) as H0.
    { eapply leave_notices_sound; [|exact Hevs].
      intros Hin. apply list_elem_of_In in Hin. simpl in Hin.
      destruct Hin as [H|[H|[H|[H|[]]]]]; discriminate H. }
    destruct Hcase as [(_ & Htr & _)|(_ & _ & k & t & Htr)].
    + rewrite (emitted_app _ _ _ Htr). lia.
    + rewrite (emitted_app _ _ _ Htr), !leave_notices_app, H0. simpl.
      pose proof (leave_notices_fan d k
        (elements ({[ws]} ∪ members room (hub w)))
        (leaveMsg room (clock t)) (NoDup_elements _)). lia.
Qed.

(** *** Frames that are not JSON *)

Lemma safeReadJSON_parse_error (data details : string) (w : World) :
  json_decode data = inr details →
  safeReadJSON (RFrame TextMessage data) w =
  (inl (parse_error data details (clock (ticks w)) ""), after w 1 []).
Proof.
  intros Hd. unfold safeReadJSON, Unmarshal. rewrite Hd. simpl.
  unfold bind, ret. by rewrite now_spec.
Qed.

(** C1, as the code has it. A text frame that does not decode does not end
    the session by itself: on each of the three endpoints the turn writes
    one envelope, to the sender and to nobody else, of type [json_error],
    with the raw text and the decoder's diagnostic (in a chat, tagged with
    the room), and leaves the registry as it is. The loop goes on to the
    next frame when that write succeeds; when it fails, the loop ends. *)
Theorem parse_error_goes_back_to_sender (ws : Conn) (room data details : string)
    (rest : list ReadResult) (w : World) :
  json_decode data = inr details →
  let frame := RFrame TextMessage data in
  let ok := link (length (trace w)) ws in
  let env := parse_error data details (clock (ticks w)) in
  let replied room := after w 1 [EvWrite ws (env room) ok] in
  (Echo_body ws frame w = (flow_of ok, replied "") ∧
   Broadcast_body ws frame w = (flow_of ok, replied "") ∧
   Chat_body ws room frame w = (flow_of ok, replied room)) ∧
  (read_loop (Echo_body ws) (frame :: rest) w =
     if ok then read_loop (Echo_body ws) rest (replied "")
     else (Returned, replied "")) ∧
  (read_loop (Broadcast_body ws) (frame :: rest) w =
     if ok then read_loop (Broadcast_body ws) rest (replied "")
     else (Returned, replied "")) ∧
  (read_loop (Chat_body ws room) (frame :: rest) w =
     if ok then read_loop (Chat_body ws room) rest (replied room)
     else (Returned, replied room)).
Proof.
  intros Hd. cbv zeta.
  assert (Echo_body ws (RFrame TextMessage data) w =
          (flow_of (link (length (trace w)) ws),
           after w 1 [EvWrite ws (parse_error data details (clock (ticks w)) "")
                        (link (length (trace w)) ws)])) as HE.
  { unfold Echo_body, bind. rewrite (safeReadJSON_parse_error _ _ _ Hd).
    simpl. by rewrite !app_nil_r. }
  assert (Broadcast_body ws (RFrame TextMessage data) w =
          (flow_of (link (length (trace w)) ws),
           after w 1 [EvWrite ws (parse_error data details (clock (ticks w)) "")
                        (link (length (trace w)) ws)])) as HB.
  { unfold Broadcast_body, bind. rewrite (safeReadJSON_parse_error _ _ _ Hd).
    simpl. by rewrite !app_nil_r. }
  assert (Chat_body ws room (RFrame TextMessage data) w =
          (flow_of (link (length (trace w)) ws),
           after w 1 [EvWrite ws (parse_error data details (clock (ticks w)) room)
                        (link (length (trace w)) ws)])) as HC.
  { unfold Chat_body, bind. rewrite (safeReadJSON_parse_error _ _ _ Hd).
    simpl. by rewrite !app_nil_r. }
  split; [by rewrite HE, HB, HC|].
  simpl read_loop. unfold bind. rewrite HE, HB, HC.
  by destruct (link (length (trace w)) ws).
Qed.

(** *** Binary frames *)

(** What a binary frame does on the broadcast endpoint: the text of the
    refusal is broadcast to every client as an ordinary message. *)
Lemma Broadcast_body_binary (ws : Conn) (data : string) (w : World) :
  Broadcast_body ws (RFrame BinaryMessage data) w =
  (Continue,
   after w 2 (fan_events (length (trace w)) (elements (clients (hub w)))
                {| Type_ := "broadcast";
                   Data := DString "Binary messages not supported";
                   Timestamp := clock (S (ticks w)); Room := "" |})).
Proof.
  unfold Broadcast_body, bind, safeReadJSON. simpl.
  rewrite broadcastToAll_spec. done.
Qed.

(** *** Timestamps *)

Lemma stamped_nonzero (m : Message) :
  (∀ k, clock k ≠ 0%Z) → stamped m → Timestamp m ≠ 0%Z.
Proof. intros Hc [H|[k ->]]; [done|apply Hc]. Qed.

Lemma fan_events_stamped (k : nat) (cs : list Conn) (msg : Message) :
  stamped msg → Forall stamped (messages (fan_events k cs msg)).
Proof.
  intros Hs. eapply Forall_impl; [apply messages_fan_events|].
  by intros m ->.
Qed.

Lemma bodies_stamped (ws : Conn) (room : string) (r : ReadResult) (w : World) :
  Forall stamped (messages (emitted w (Echo_body ws r w).2)) ∧
  Forall stamped (messages (emitted w (Broadcast_body ws r w).2)) ∧
  Forall stamped (messages (emitted w (Chat_body ws room r w).2)).
Proof.
  split; [|split].
  - destruct (Echo_body_cases ws r w) as [(e & _ & ->)|(msg & n & -> & _ & Hs)].
    + simpl. rewrite emitted_same. constructor.
    + simpl. rewrite emitted_after. unfold messages. simpl. by constructor.
  - destruct (Broadcast_body_cases ws r w)
      as [(e & _ & ->)|[(msg & n & -> & _ & Hs)|(data & k & n & ->)]].
    + simpl. rewrite emitted_same. constructor.
    + simpl. rewrite emitted_after. unfold messages. simpl. by constructor.
    + simpl. rewrite emitted_after. apply fan_events_stamped.
      right. by exists k.
  - destruct (Chat_body_cases ws room r w)
      as [(e & _ & ->)|[(msg & n & -> & _ & _ & Hs)|(data & k & n & ->)]].
    + simpl. rewrite emitted_same. constructor.
    + simpl. rewrite emitted_after. unfold messages. simpl. by constructor.
    + simpl. rewrite emitted_after. apply fan_events_stamped.
      right. by exists k.
Qed.

(** C10. With a clock that never reads 0: the envelope [safeReadJSON] hands
    to a session never has timestamp 0; a decoded envelope whose timestamp
    is 0 gets the clock's reading at receipt; a text that gives the
    timestamp as 0 is read exactly as the text that leaves it out; and no
    envelope a turn of any of the three loops writes, reply or broadcast,
    has timestamp 0. *)
Theorem zero_timestamp_is_replaced (ws : Conn) (room data data' : string)
    (f : Fields) (r : ReadResult) (w : World) :
  (∀ k, clock k ≠ 0%Z) →
  (∀ msg w', safeReadJSON r w = (inl msg, w') → Timestamp msg ≠ 0%Z) ∧
  (json_decode data = inl f → Timestamp (fill f zeroMessage) = 0%Z →
   safeReadJSON (RFrame TextMessage data) w =
   (inl {| Type_ := Type_ (fill f zeroMessage);
           Data := Data (fill f zeroMessage);
           Timestamp := clock (ticks w);
           Room := Room (fill f zeroMessage) |}, after w 1 [])) ∧
  (json_decode data = inl f → f_timestamp f = Some 0%Z →
   json_decode data' = inl (without_timestamp f) →
   safeReadJSON (RFrame TextMessage data) w =
   safeReadJSON (RFrame TextMessage data') w) ∧
  Forall (λ m, Timestamp m ≠ 0%Z) (messages (emitted w (Echo_body ws r w).2)) ∧
  Forall (λ m, Timestamp m ≠ 0%Z) (messages (emitted w (Broadcast_body ws r w).2)) ∧
  Forall (λ m, Timestamp m ≠ 0%Z) (messages (emitted w (Chat_body ws room r w).2)).
Proof.
  intros Hclock.
  assert (∀ data0 f0, json_decode data0 = inl f0 →
            Timestamp (fill f0 zeroMessage) = 0%Z →
            safeReadJSON (RFrame TextMessage data0) w =
            (inl {| Type_ := Type_ (fill f0 zeroMessage);
                    Data := Data (fill f0 zeroMessage);
                    Timestamp := clock (ticks w);
                    Room := Room (fill f0 zeroMessage) |}, after w 1 []))
    as Hzero.
  { intros data0 f0 Hd Hz. unfold safeReadJSON, Unmarshal. rewrite Hd. simpl negb.
    cbv iota. rewrite Hz. simpl. unfold bind, ret. by rewrite now_spec. }
  split; [|split; [|split]].
  - intros msg w' Hread.
    destruct (safeReadJSON_cases r w)
      as [(e & _ & H)|[(m & H & Ht)|(m & H & Ht)]];
      rewrite H in Hread; inversion Hread; subst; [done|].
    rewrite Ht. apply Hclock.
  - apply Hzero.
  - intros Hd Hts Hd'.
    rewrite (Hzero data f Hd), (Hzero data' _ Hd').
    + destruct f as [ty da ts ro]. simpl in *. by subst ts.
    + by destruct f.
    + destruct f as [ty da ts ro]. simpl in *. by subst ts.
  - destruct (bodies_stamped ws room r w) as (HE & HB & HC).
    repeat split;
      (eapply Forall_impl; [eassumption|]; intros m Hs;
       by apply stamped_nonzero).
Qed.

(** *** The leave notice *)

Lemma sound_messages (aud : gset Conn) (types : list string) (evs : list Event) :
  Forall (sound_event aud types) evs →
  Forall (λ m, Type_ m ∈ types ∧ stamped m) (messages evs).
Proof.
  induction 1 as [|[c m ok|c] evs He _ IH]; simpl.
  - constructor.
  - unfold messages in *. simpl. constructor; [|done]. simpl in He. tauto.
  - done.
Qed.

(** C6, as the code has it. When a chat session closes, the leave notice is
    written first, to the members the room has at that moment, the closing
    connection still among them, so that the connection is one of its
    recipients; only then does the connection leave the room and get
    closed. This holds of the closing sequence in any world, and of a whole
    session that has returned, in which nothing before the notice is a
    leave notice. *)
Theorem leave_notice_precedes_departure (ws : Conn) (room : string)
    (inbox : list ReadResult) (w : World) :
  let closing := (Chat_close ws room w).2 in
  let session := Chat ws room inbox w in
  let aud : gset Conn := {[ws]} ∪ members room (hub w) in
  (∃ leaves,
     emitted w closing = leaves ++ [EvClose ws] ∧
     Forall (λ m, m = leaveMsg room (clock (ticks w))) (messages leaves) ∧
     recipients leaves ≡ₚ elements (members room (hub w)) ∧
     (ws ∈ members room (hub w) → ws ∈ recipients leaves) ∧
     members room (hub closing) = members room (hub w) ∖ {[ws]}) ∧
  (session.1 = Returned →
   ∃ before leaves,
     emitted w session.2 = before ++ leaves ++ [EvClose ws] ∧
     Forall (λ m, Type_ m ≠ "leave") (messages before) ∧
     Forall (λ m, Type_ m = "leave" ∧ Room m = room) (messages leaves) ∧
     recipients leaves ≡ₚ elements aud ∧
     ws ∈ recipients leaves ∧
     members room (hub session.2) = aud ∖ {[ws]} ∧
     ws ∉ members room (hub session.2)).
Proof.
  cbv zeta. split.
  { rewrite Chat_close_spec.
    match goal with |- context [removeFromRoom ws room ?x] =>
      pose proof (removeFromRoom_trace ws room x) as Htr;
      pose proof (removeFromRoom_members ws room x) as Hm end.
    unfold after in Htr at 2. cbn [trace] in Htr. rewrite <- app_assoc in Htr.
    eexists. split; [exact (emitted_app _ _ _ Htr)|].
    split; [apply messages_fan_events|].
    rewrite recipients_fan_events. split; [done|].
    split; [by rewrite elem_of_elements|]. exact Hm. }
  intros Hret.
  destruct (decide (room = "")) as [->|Hroom].
  { unfold Chat in Hret. simpl in Hret. discriminate Hret. }
  destruct (Chat_trace ws room inbox w Hroom) as (evs & Hevs & Hcase).
  destruct Hcase as [(Hst & _)|(_ & Hm & k & t & Htr)].
  { rewrite Hret in Hst. discriminate Hst. }
  exists evs,
    (fan_events k (elements ({[ws]} ∪ members room (hub w)))
       (leaveMsg room (clock t))).
  split; [by apply emitted_app|].
  split.
  { eapply Forall_impl; [apply (sound_messages _ _ _ Hevs)|].
    intros m [Hty _] E. rewrite E in Hty.
    apply list_elem_of_In in Hty. simpl in Hty.
    destruct Hty as [H|[H|[H|[H|[]]]]]; discriminate H. }
  split.
  { eapply Forall_impl; [apply messages_fan_events|].
    by intros m ->. }
  rewrite recipients_fan_events.
  split; [done|].
  split.
  { apply elem_of_elements, elem_of_union_l. by apply elem_of_singleton_2. }
  split; [done|].
  rewrite Hm, elem_of_difference, elem_of_singleton. tauto.
Qed.

(** ** More of the handlers *)

(** *** Frames that decode *)

(** What [safeReadJSON] makes of a text frame that decodes: the decoded
    envelope, with the clock's reading in place of a timestamp of 0. *)
Lemma safeReadJSON_decoded (data : string) (f : Fields) (w : World) :
  json_decode data = inl f →
  safeReadJSON (RFrame TextMessage data) w =
  if (Timestamp (fill f zeroMessage) =? 0)%Z then
    (inl {| Type_ := Type_ (fill f zeroMessage);
            Data := Data (fill f zeroMessage);
            Timestamp := clock (ticks w);
            Room := Room (fill f zeroMessage) |}, after w 1 [])
  else (inl (fill f zeroMessage), w).
Proof.
  intros Hd. unfold safeReadJSON, Unmarshal. rewrite Hd.
  change (negb (TextMessage =? TextMessage)%Z) with false. cbv iota.
  destruct (Timestamp (fill f zeroMessage) =? 0)%Z; [|done].
  unfold bind, ret. by rewrite now_spec.
Qed.

Lemma eqb_json_error_false (msg : Message) :
  Type_ msg ≠ "json_error" → String.eqb (Type_ msg) "json_error" = false.
Proof. intros H. by apply String.eqb_neq. Qed.

(** X1. On the echo endpoint a text frame that decodes to an envelope of any
    type but [json_error] is answered by exactly one envelope, written to
    the sender: its type is [echo], its payload is the payload received, its
    room is empty and its timestamp is the clock's, whatever type, room and
    timestamp the client gave. The loop goes on when the write succeeds. *)
Theorem echo_returns_the_payload (ws : Conn) (data : string) (f : Fields)
    (w : World) :
  json_decode data = inl f →
  Type_ (fill f zeroMessage) ≠ "json_error" →
  ∃ n k,
    Echo_body ws (RFrame TextMessage data) w =
    (flow_of (link (length (trace w)) ws),
     after w n [EvWrite ws {| Type_ := "echo";
                              Data := default DNil (f_data f);
                              Timestamp := clock k;
                              Room := "" |}
                  (link (length (trace w)) ws)]) ∧
    ticks w ≤ k < n + ticks w.
Proof.
  intros Hd Hty. unfold Echo_body, bind.
  rewrite (safeReadJSON_decoded _ _ _ Hd).
  destruct (Timestamp (fill f zeroMessage) =? 0)%Z.
  - cbn [Type_ Data]. rewrite (eqb_json_error_false _ Hty).
    rewrite now_at, safeWriteJSON_at. simpl.
    exists 2, (S (ticks w)). rewrite !app_nil_r. split; [done|lia].
  - rewrite (eqb_json_error_false _ Hty).
    rewrite now_spec, safeWriteJSON_after. simpl.
    exists 1, (ticks w). split; [done|lia].
Qed.

Lemma Broadcast_body_decoded (ws : Conn) (data : string) (f : Fields) (w : World) :
  json_decode data = inl f →
  Type_ (fill f zeroMessage) ≠ "json_error" →
  ∃ n k,
    Broadcast_body ws (RFrame TextMessage data) w =
    (Continue,
     after w n (fan_events (length (trace w)) (elements (clients (hub w)))
                  {| Type_ := "broadcast"; Data := default DNil (f_data f);
                     Timestamp := clock k; Room := "" |})).
Proof.
  intros Hd Hty. unfold Broadcast_body, bind.
  rewrite (safeReadJSON_decoded _ _ _ Hd).
  destruct (Timestamp (fill f zeroMessage) =? 0)%Z; cbn [Type_ Data];
    rewrite (eqb_json_error_false _ Hty).
  - rewrite now_at.
    match goal with |- context [broadcastToAll ?m (after w 2 [])] =>
      pose proof (broadcastToAll_after m w 2) as H;
      destruct (broadcastToAll m (after w 2 [])) as [res w'] end.
    simpl in H. subst w'. by exists 2, (1 + ticks w).
  - rewrite now_spec.
    match goal with |- context [broadcastToAll ?m (after w 1 [])] =>
      pose proof (broadcastToAll_after m w 1) as H;
      destruct (broadcastToAll m (after w 1 [])) as [res w'] end.
    simpl in H. subst w'. by exists 1, (ticks w).
Qed.

Lemma Chat_body_decoded (ws : Conn) (room data : string) (f : Fields) (w : World) :
  json_decode data = inl f →
  Type_ (fill f zeroMessage) ≠ "json_error" →
  ∃ n k,
    Chat_body ws room (RFrame TextMessage data) w =
    (Continue,
     after w n (fan_events (length (trace w)) (elements (members room (hub w)))
                  {| Type_ := "chat"; Data := default DNil (f_data f);
                     Timestamp := clock k; Room := room |})).
Proof.
  intros Hd Hty. unfold Chat_body, bind.
  rewrite (safeReadJSON_decoded _ _ _ Hd).
  destruct (Timestamp (fill f zeroMessage) =? 0)%Z; cbn [Type_ Data];
    rewrite (eqb_json_error_false _ Hty).
  - rewrite now_at.
    match goal with |- context [broadcastToRoom room ?m (after w 2 [])] =>
      pose proof (broadcastToRoom_after room m w 2) as H;
      destruct (broadcastToRoom room m (after w 2 [])) as [res w'] end.
    simpl in H. subst w'. by exists 2, (1 + ticks w).
  - rewrite now_spec.
    match goal with |- context [broadcastToRoom room ?m (after w 1 [])] =>
      pose proof (broadcastToRoom_after room m w 1) as H;
      destruct (broadcastToRoom room m (after w 1 [])) as [res w'] end.
    simpl in H. subst w'. by exists 1, (ticks w).
Qed.

Lemma fan_events_carry (k : nat) (cs : list Conn) (msg : Message)
    (P : Message → Prop) :
  P msg → Forall P (messages (fan_events k cs msg)).
Proof.
  intros HP. eapply Forall_impl; [apply messages_fan_events|]. by intros m ->.
Qed.

(** X2. On the broadcast endpoint a text frame that decodes to an envelope
    of any type but [json_error] is fanned out to every registered client,
    the sender included when it is registered, as a [broadcast] envelope
    with the payload received and an empty room; the registry is left as it
    is and the loop goes on whatever the writes do. *)
Theorem broadcast_carries_the_payload (ws : Conn) (data : string) (f : Fields)
    (w : World) :
  json_decode data = inl f →
  Type_ (fill f zeroMessage) ≠ "json_error" →
  let turn := Broadcast_body ws (RFrame TextMessage data) w in
  turn.1 = Continue ∧
  hub turn.2 = hub w ∧
  recipients (emitted w turn.2) ≡ₚ elements (clients (hub w)) ∧
  (ws ∈ clients (hub w) → ws ∈ recipients (emitted w turn.2)) ∧
  Forall (λ m, Type_ m = "broadcast" ∧ Data m = default DNil (f_data f) ∧
               Room m = "")
    (messages (emitted w turn.2)).
Proof.
  intros Hd Hty. cbv zeta.
  destruct (Broadcast_body_decoded ws data f w Hd Hty) as (n & k & ->).
  cbn [fst snd]. rewrite emitted_after, recipients_fan_events.
  split; [done|]. split; [done|]. split; [done|].
  split; [by rewrite elem_of_elements|]. by apply fan_events_carry.
Qed.

(** X3. In a chat a text frame that decodes to an envelope of any type but
    [json_error] is fanned out to the members of the session's room, the
    sender included when it is a member, as a [chat] envelope with the
    payload received, tagged with the session's room whatever room the
    client named; the registry is left as it is and the loop goes on. *)
Theorem chat_carries_the_payload (ws : Conn) (room data : string) (f : Fields)
    (w : World) :
  json_decode data = inl f →
  Type_ (fill f zeroMessage) ≠ "json_error" →
  let turn := Chat_body ws room (RFrame TextMessage data) w in
  turn.1 = Continue ∧
  hub turn.2 = hub w ∧
  recipients (emitted w turn.2) ≡ₚ elements (members room (hub w)) ∧
  (ws ∈ members room (hub w) → ws ∈ recipients (emitted w turn.2)) ∧
  Forall (λ m, Type_ m = "chat" ∧ Data m = default DNil (f_data f) ∧
               Room m = room)
    (messages (emitted w turn.2)).
Proof.
  intros Hd Hty. cbv zeta.
  destruct (Chat_body_decoded ws room data f w Hd Hty) as (n & k & ->).
  cbn [fst snd]. rewrite emitted_after, recipients_fan_events.
  split; [done|]. split; [done|]. split; [done|].
  split; [by rewrite elem_of_elements|]. by apply fan_events_carry.
Qed.

(** X4. A well-formed envelope that names its own type [json_error] is taken
    for a report of a parse error: on each of the three endpoints it is
    written back to its sender alone, with its own payload (and, in a chat,
    the session's room), and is never fanned out, whoever else is
    registered. *)
Theorem json_error_type_is_never_fanned_out (ws : Conn) (room data : string)
    (f : Fields) (w : World) :
  json_decode data = inl f →
  Type_ (fill f zeroMessage) = "json_error" →
  let frame := RFrame TextMessage data in
  let ok := link (length (trace w)) ws in
  let reply (turn : Flow * World) (room : string) :=
    turn.1 = flow_of ok ∧ hub turn.2 = hub w ∧
    recipients (emitted w turn.2) = [ws] ∧
    Forall (λ m, Type_ m = "json_error" ∧ Data m = default DNil (f_data f) ∧
                 Room m = room)
      (messages (emitted w turn.2)) in
  reply (Echo_body ws frame w) (default "" (f_room f)) ∧
  reply (Broadcast_body ws frame w) (default "" (f_room f)) ∧
  reply (Chat_body ws room frame w) room.
Proof.
  intros Hd Hty. cbv zeta.
  assert (String.eqb (Type_ (fill f zeroMessage)) "json_error" = true) as Hje
    by by apply String.eqb_eq.
  unfold Echo_body, Broadcast_body, Chat_body, bind.
  rewrite (safeReadJSON_decoded _ _ _ Hd).
  destruct (Timestamp (fill f zeroMessage) =? 0)%Z; cbn [Type_ Data Room];
    rewrite Hje.
  - rewrite !safeWriteJSON_after. unfold ret. cbn [fst snd].
    rewrite !emitted_after. unfold recipients, messages. simpl.
    repeat split; try done; by repeat constructor.
  - rewrite !safeWriteJSON_spec. unfold ret. cbn [fst snd].
    rewrite !emitted_after. unfold recipients, messages. simpl.
    repeat split; try done; by repeat constructor.
Qed.

(** *** Whole sessions *)

Lemma Echo_body_sound (ws : Conn) (r : ReadResult) (w : World) :
  ∃ f n evs, Echo_body ws r w = (f, after w n evs) ∧
    Forall (sound_event {[ws]} ["json_error"; "echo"]) evs.
Proof.
  destruct (Echo_body_cases ws r w)
    as [(e & _ & ->)|(msg & n & -> & Hty & Hs)].
  - exists Break, 0, []. by rewrite after_0_nil.
  - eexists _, n, _. split; [done|]. constructor; [|constructor].
    simpl. split; [by apply elem_of_singleton_2|]. split; [|done].
    destruct Hty as [-> | ->]; [by left|right; by left].
Qed.

Lemma Broadcast_body_sound (ws : Conn) (r : ReadResult) (w : World) :
  ∃ f n evs, Broadcast_body ws r w = (f, after w n evs) ∧
    Forall (sound_event ({[ws]} ∪ clients (hub w)) ["json_error"; "broadcast"]) evs.
Proof.
  destruct (Broadcast_body_cases ws r w)
    as [(e & _ & ->)|[(msg & n & -> & Hty & Hs)|(data & k & n & ->)]].
  - exists Break, 0, []. by rewrite after_0_nil.
  - eexists _, n, _. split; [done|]. constructor; [|constructor].
    simpl. split; [by apply elem_of_union_l, elem_of_singleton_2|].
    split; [|done]. rewrite Hty. by left.
  - eexists _, n, _. split; [done|]. apply fan_events_sound.
    + intros c Hc. apply elem_of_elements in Hc. by apply elem_of_union_r.
    + simpl. right. by left.
    + right. by exists k.
Qed.

Lemma types_included (small big : list string) :
  (∀ x, In x small → In x big) → small ⊆ big.
Proof.
  intros H x Hx. apply list_elem_of_In. apply H. by apply list_elem_of_In.
Qed.

(** X5. An echo session never touches the registry and writes to its own
    connection only, envelopes of type [welcome], [json_error] or [echo].
    While it waits for a frame the connection is not closed; once the
    handler has returned, the close of the connection is its last event;
    the handler is never refused. *)
Theorem echo_session_is_private (ws : Conn) (inbox : list ReadResult) (w : World) :
  let run := Echo ws inbox w in
  hub run.2 = hub w ∧
  ∃ evs,
    Forall (sound_event {[ws]} ["welcome"; "json_error"; "echo"]) evs ∧
    ((run.1 = Parked ∧ emitted w run.2 = evs) ∨
     (run.1 = Returned ∧ emitted w run.2 = evs ++ [EvClose ws])).
Proof.
  cbv zeta. unfold Echo, bind. rewrite now_spec, safeWriteJSON_after.
  set (welcome := EvWrite ws _ _).
  assert (sound_event {[ws]} ["welcome"; "json_error"; "echo"] welcome) as Hw.
  { subst welcome. simpl. split; [by apply elem_of_singleton_2|].
    split; [by left|]. right. by eexists. }
  destruct (link (length (trace w)) ws).
  - destruct (read_loop_sound (Echo_body ws) (λ _, {[ws]}) ["json_error"; "echo"]
                (Echo_body_sound ws) inbox (after w 1 [welcome]))
      as (st & n & evs & -> & Hst & Hevs).
    rewrite after_after.
    assert (Forall (sound_event {[ws]} ["welcome"; "json_error"; "echo"])
              ([welcome] ++ evs)) as Hall.
    { apply Forall_app. split; [by constructor|].
      eapply Forall_impl; [exact Hevs|]. intros e. apply sound_event_mono; [done|].
      apply types_included. simpl. tauto. }
    destruct Hst as [-> | ->].
    + unfold ret. cbn [fst snd]. split; [done|].
      exists ([welcome] ++ evs). split; [done|]. left.
      by rewrite emitted_after.
    + unfold emit, ret. cbn [fst snd hub]. split; [done|].
      exists ([welcome] ++ evs). split; [done|]. right. split; [done|].
      apply emitted_app. unfold after. cbn [trace]. by rewrite <- app_assoc.
  - unfold emit, ret. cbn [fst snd hub]. split; [done|].
    exists [welcome]. split; [by constructor|]. right. split; [done|].
    apply emitted_app. unfold after. cbn [trace]. by rewrite <- app_assoc.
Qed.

Lemma addClient_spec (conn : Conn) (w : World) :
  addClient conn w =
  (tt, {| hub := {| clients := {[conn]} ∪ clients (hub w);
                    rooms := rooms (hub w) |};
          trace := trace w; ticks := ticks w |}).
Proof. done. Qed.

(** X6. A broadcast session registers its connection for as long as it runs
    and leaves the rooms alone: while it waits for a frame, the clients are
    those it found and its own connection; once it has returned, its
    connection is no longer a client, and the close of the connection is
    the last event. All it writes goes to its own connection or to the
    clients it found, in envelopes of type [welcome], [json_error] or
    [broadcast]. *)
Theorem broadcast_session_registers_and_leaves (ws : Conn)
    (inbox : list ReadResult) (w : World) :
  let run := Broadcast ws inbox w in
  rooms (hub run.2) = rooms (hub w) ∧
  ∃ evs,
    Forall (sound_event ({[ws]} ∪ clients (hub w))
              ["welcome"; "json_error"; "broadcast"]) evs ∧
    ((run.1 = Parked ∧
      clients (hub run.2) = {[ws]} ∪ clients (hub w) ∧
      emitted w run.2 = evs) ∨
     (run.1 = Returned ∧
      clients (hub run.2) = clients (hub w) ∖ {[ws]} ∧
      emitted w run.2 = evs ++ [EvClose ws])).
Proof.
  cbv zeta. unfold Broadcast, bind. rewrite addClient_spec.
  set (w1 := {| hub := _; trace := trace w; ticks := ticks w |}).
  assert (trace w1 = trace w) as Htr by done.
  assert (clients (hub w1) = {[ws]} ∪ clients (hub w)) as Hcl by done.
  assert (rooms (hub w1) = rooms (hub w)) as Hro by done.
  clearbody w1.
  rewrite now_spec, safeWriteJSON_after.
  set (welcome := EvWrite ws _ _).
  assert (sound_event ({[ws]} ∪ clients (hub w))
            ["welcome"; "json_error"; "broadcast"] welcome) as Hw.
  { subst welcome. simpl. split; [by apply elem_of_union_l, elem_of_singleton_2|].
    split; [by left|]. right. by eexists. }
  destruct (read_loop_sound (Broadcast_body ws) (λ h, {[ws]} ∪ clients h)
              ["json_error"; "broadcast"]
              (Broadcast_body_sound ws) inbox (after w1 1 [welcome]))
    as (st & n & evs & -> & Hst & Hevs).
  rewrite after_after.
  change (hub (after w1 1 [welcome])) with (hub w1) in Hevs. rewrite Hcl in Hevs.
  assert (Forall (sound_event ({[ws]} ∪ clients (hub w))
                    ["welcome"; "json_error"; "broadcast"])
            ([welcome] ++ evs)) as Hall.
  { apply Forall_app. split; [by constructor|].
    eapply Forall_impl; [exact Hevs|]. intros e. apply sound_event_mono.
    - intros x. rewrite !elem_of_union. tauto.
    - apply types_included. simpl. tauto. }
  destruct Hst as [-> | ->].
  - unfold ret, after. cbn [fst snd hub]. split; [done|].
    exists ([welcome] ++ evs). split; [done|]. left.
    split; [done|]. split; [done|].
    apply emitted_app. cbn [trace]. by rewrite Htr.
  - rewrite removeClient_spec.
    destruct (decide (ws ∈ clients (hub (after w1 (n + 1) ([welcome] ++ evs)))))
      as [_|Hout].
    2:{ exfalso. apply Hout. change (ws ∈ clients (hub w1)). rewrite Hcl.
        by apply elem_of_union_l, elem_of_singleton_2. }
    unfold ret, after. cbn [fst snd hub clients rooms trace]. rewrite Hcl.
    split; [done|].
    exists ([welcome] ++ evs). split; [done|]. right.
    split; [done|]. split.
    + apply leibniz_equiv. intros x.
      rewrite !elem_of_difference, elem_of_union, elem_of_singleton. tauto.
    + apply emitted_app. cbn [trace]. by rewrite Htr, <- app_assoc.
Qed.

(** *** The registry again *)

Lemma join_then_leave_set (c : Conn) (m : gset Conn) :
  c ∉ m → ({[c]} ∪ m) ∖ {[c]} = m.
Proof.
  intros Hc. apply leibniz_equiv. intros x.
  rewrite elem_of_difference, elem_of_union, elem_of_singleton.
  split.
  - intros [[Heq|Hx] Hne]; [by destruct Hne|done].
  - intros Hx. split; [by right|]. by intros ->.
Qed.

Lemma removeFromRoom_addToRoom_hub (c : Conn) (room : string) (w : World) :
  c ∉ members room (hub w) →
  rooms (hub w) !! room ≠ Some ∅ →
  hub (removeFromRoom c room (addToRoom c room w).2).2 = hub w.
Proof.
  intros Hc Hne.
  rewrite removeFromRoom_spec. cbn [snd hub].
  rewrite addToRoom_members, addToRoom_spec. cbn [snd hub clients rooms].
  rewrite decide_True by by apply elem_of_union_l, elem_of_singleton_2.
  rewrite (join_then_leave_set _ _ Hc).
  destruct (hub w) as [cl rs] eqn:Hh. cbn [clients rooms] in *.
  f_equal.
  unfold members in *. cbn [rooms] in *.
  destruct (rs !! room) as [s|] eqn:Hr; simpl in *.
  - rewrite decide_False by (intros Hs; apply Hne; by rewrite Hs).
    by rewrite insert_insert_eq, insert_id.
  - rewrite decide_True by done.
    by rewrite delete_insert_eq, delete_id.
Qed.

(** X7. Joining a room and then leaving it puts the registry back as it
    was, for a connection that was not in the room, in a registry that does
    not hold the room empty: the entry of the room is deleted again if the
    join created it, and holds the former members if it did not. *)
Theorem leave_undoes_join (c : Conn) (room : string) (w : World) :
  c ∉ members room (hub w) →
  rooms (hub w) !! room ≠ Some ∅ →
  let w' := (removeFromRoom c room (addToRoom c room w).2).2 in
  hub w' = hub w ∧ trace w' = trace w ++ [EvClose c].
Proof.
  intros Hc Hne. cbv zeta. split.
  - by apply removeFromRoom_addToRoom_hub.
  - by rewrite removeFromRoom_trace, addToRoom_trace.
Qed.

(** X8. Registering a connection twice is registering it once, and
    deregistering a connection that was registered afresh puts the client
    set back as it was and closes the connection once. *)
Theorem register_then_deregister (c : Conn) (w : World) :
  (addClient c (addClient c w).2).2 = (addClient c w).2 ∧
  (c ∉ clients (hub w) →
   let w' := (removeClient c (addClient c w).2).2 in
   hub w' = hub w ∧ trace w' = trace w ++ [EvClose c]).
Proof.
  split.
  - rewrite !addClient_spec. cbn [snd hub clients rooms trace ticks].
    do 2 f_equal. apply leibniz_equiv. intros x.
    rewrite !elem_of_union.
    split; [intros [H|[H|H]]; auto|intros [H|H]; auto].
  - intros Hc. cbv zeta.
    rewrite removeClient_spec, addClient_spec. cbn [snd hub clients rooms].
    rewrite decide_True by by apply elem_of_union_l, elem_of_singleton_2.
    cbn [snd hub trace]. split; [|done].
    rewrite (join_then_leave_set _ _ Hc). by destruct (hub w).
Qed.

(** X9. The four operations of the registry keep to their own part of it:
    a join or a leave in one room changes neither the members of another
    room nor the client set, so that a connection stays in the rooms it was
    in when it joins one more; registering or deregistering a client
    changes no room. *)
Theorem registry_operations_are_local (c : Conn) (room other : string) (w : World) :
  room ≠ other →
  (members other (hub (addToRoom c room w).2) = members other (hub w) ∧
   clients (hub (addToRoom c room w).2) = clients (hub w)) ∧
  (members other (hub (removeFromRoom c room w).2) = members other (hub w) ∧
   clients (hub (removeFromRoom c room w).2) = clients (hub w)) ∧
  rooms (hub (addClient c w).2) = rooms (hub w) ∧
  rooms (hub (removeClient c w).2) = rooms (hub w).
Proof.
  intros Hne. split; [|split; [|split]].
  - rewrite addToRoom_spec. unfold members. cbn [snd hub rooms clients].
    by rewrite lookup_insert_ne.
  - rewrite removeFromRoom_spec. unfold members at 1. cbn [snd hub rooms clients].
    split; [|done].
    destruct (decide (c ∈ members room (hub w))); [|done].
    destruct (decide (members room (hub w) ∖ {[c]} = ∅)).
    + by rewrite lookup_delete_ne.
    + by rewrite lookup_insert_ne.
  - by rewrite addClient_spec.
  - rewrite removeClient_spec. by destruct (decide (c ∈ clients (hub w))).
Qed.

(** *** Read errors *)

Lemma read_loop_stops (body : ReadResult → M Flow) :
  (∀ e w, body (RErr e) w = (Break, w)) →
  ∀ pre e rest w,
    read_loop body (pre ++ RErr e :: rest) w = read_loop body (pre ++ [RErr e]) w ∧
    (read_loop body (pre ++ [RErr e]) w).1 = Returned.
Proof.
  intros Hbody pre e rest. induction pre as [|r pre IH]; intros w; simpl.
  - unfold bind. by rewrite Hbody.
  - unfold bind. destruct (body r w) as [[|] w1]; [apply IH|done].
Qed.

Lemma bodies_break_on_read_error (ws : Conn) (room : string) (e : string) (w : World) :
  Echo_body ws (RErr e) w = (Break, w) ∧
  Broadcast_body ws (RErr e) w = (Break, w) ∧
  Chat_body ws room (RErr e) w = (Break, w).
Proof. done. Qed.

(** X10. A session ends at the first read that fails: the handler returns,
    and the frames that would have arrived after the failure change nothing
    of what it did. This holds on the echo and broadcast endpoints, and in
    a chat (whose handler returns if it was given a room). *)
Theorem session_ends_at_first_read_error (ws : Conn) (room : string)
    (pre rest : list ReadResult) (e : string) (w : World) :
  (Echo ws (pre ++ RErr e :: rest) w = Echo ws (pre ++ [RErr e]) w ∧
   (Echo ws (pre ++ [RErr e]) w).1 = Returned) ∧
  (Broadcast ws (pre ++ RErr e :: rest) w = Broadcast ws (pre ++ [RErr e]) w ∧
   (Broadcast ws (pre ++ [RErr e]) w).1 = Returned) ∧
  (Chat ws room (pre ++ RErr e :: rest) w = Chat ws room (pre ++ [RErr e]) w ∧
   (room ≠ "" → (Chat ws room (pre ++ [RErr e]) w).1 = Returned)).
Proof.
  pose proof (read_loop_stops (Echo_body ws)
    (λ e w, proj1 (bodies_break_on_read_error ws room e w))) as HE.
  pose proof (read_loop_stops (Broadcast_body ws)
    (λ e w, proj1 (proj2 (bodies_break_on_read_error ws room e w)))) as HB.
  pose proof (read_loop_stops (Chat_body ws room)
    (λ e w, proj2 (proj2 (bodies_break_on_read_error ws room e w)))) as HC.
  split; [|split].
  - unfold Echo, bind.
    destruct (now w) as [t w1]. destruct (safeWriteJSON ws _ w1) as [[|] w2];
      [|done].
    destruct (HE pre e rest w2) as [-> Hst].
    destruct (read_loop (Echo_body ws) (pre ++ [RErr e]) w2) as [st w3].
    simpl in Hst. by subst st.
  - unfold Broadcast, bind.
    destruct (addClient ws w) as [u w0]. destruct (now w0) as [t w1].
    destruct (safeWriteJSON ws _ w1) as [ok w2].
    destruct (HB pre e rest w2) as [-> Hst].
    destruct (read_loop (Broadcast_body ws) (pre ++ [RErr e]) w2) as [st w3].
    simpl in Hst. subst st. split; [done|].
    by destruct (removeClient ws w3).
  - unfold Chat. destruct (String.eqb room "") eqn:E.
    { split; [done|]. intros Hr. by apply String.eqb_neq in Hr; congruence. }
    unfold bind. destruct (Chat_open ws room w) as [u w2].
    destruct (HC pre e rest w2) as [-> Hst].
    destruct (read_loop (Chat_body ws room) (pre ++ [RErr e]) w2) as [st w3].
    simpl in Hst. subst st. split; [done|]. intros _.
    by destruct (Chat_close ws room w3).
Qed.

(** *** Joining *)

Lemma Chat_open_exact (ws : Conn) (room : string) (w : World) :
  Chat_open ws room w =
  (tt, after (addToRoom ws room w).2 2
         (EvWrite ws (welcomeMsg room (clock (ticks w)))
            (link (length (trace w)) ws)
          :: fan_events (S (length (trace w)))
               (elements ({[ws]} ∪ members room (hub w)))
               (joinMsg room (clock (S (ticks w)))))).
Proof.
  unfold Chat_open, bind.
  pose proof (addToRoom_members ws room w) as Hm.
  pose proof (addToRoom_trace ws room w) as Htr.
  assert (ticks (addToRoom ws room w).2 = ticks w) as Htk
    by by rewrite addToRoom_spec.
  destruct (addToRoom ws room w) as [[] w1]. cbn [snd] in *.
  rewrite now_spec, safeWriteJSON_at, now_at.
  match goal with |- context [broadcastToRoom room ?m (after w1 2 ?evs)] =>
    pose proof (broadcastToRoom_at room m w1 2 evs) as H end.
  destruct (broadcastToRoom _ _ _) as [res w2]. cbn [snd] in H. subst w2.
  unfold ret. rewrite Hm, Htr, Htk.
  rewrite !app_nil_r, length_app. simpl. by rewrite Nat.add_1_r.
Qed.

(** X11. When a chat session opens, the connection joins the room, is
    written the welcome, and then the join notice goes to every member of
    the room, the joiner itself among them, whether or not the welcome
    could be written. *)
Theorem join_notice_reaches_the_joiner (ws : Conn) (room : string) (w : World) :
  let run := Chat_open ws room w in
  let aud : gset Conn := {[ws]} ∪ members room (hub w) in
  ∃ joins,
    emitted w run.2 =
      EvWrite ws (welcomeMsg room (clock (ticks w)))
        (link (length (trace w)) ws) :: joins ∧
    recipients joins ≡ₚ elements aud ∧
    ws ∈ recipients joins ∧
    Forall (λ m, m = joinMsg room (clock (S (ticks w)))) (messages joins) ∧
    members room (hub run.2) = aud.
Proof.
  cbv zeta. rewrite Chat_open_exact. cbn [snd].
  eexists. split.
  { apply emitted_app. unfold after. cbn [trace].
    by rewrite addToRoom_trace. }
  rewrite recipients_fan_events. split; [done|].
  split.
  { apply elem_of_elements, elem_of_union_l. by apply elem_of_singleton_2. }
  split; [apply messages_fan_events|].
  change (hub (after (addToRoom ws room w).2 2 _))
    with (hub (addToRoom ws room w).2).
  apply addToRoom_members.
Qed.

(** *** What a chat session leaves behind *)

Lemma removeFromRoom_hub_ext (c : Conn) (room : string) (w w' : World) :
  hub w = hub w' →
  hub (removeFromRoom c room w).2 = hub (removeFromRoom c room w').2.
Proof. intros H. rewrite !removeFromRoom_spec. cbn [snd hub]. by rewrite H. Qed.

(** The registry after a chat session: the one the join made while the
    session waits, and the one the leave makes of it once it has
    returned. *)
Lemma Chat_hub (ws : Conn) (room : string) (inbox : list ReadResult) (w : World) :
  room ≠ "" →
  let run := Chat ws room inbox w in
  (run.1 = Parked ∧ hub run.2 = hub (addToRoom ws room w).2) ∨
  (run.1 = Returned ∧
   hub run.2 = hub (removeFromRoom ws room (addToRoom ws room w).2).2).
Proof.
  intros Hroom. cbv zeta. unfold Chat.
  rewrite (proj2 (String.eqb_neq _ _) Hroom). unfold bind.
  rewrite Chat_open_exact.
  generalize ((addToRoom ws room w).2). intros w1.
  match goal with |- context [read_loop _ inbox (after w1 2 ?evs)] =>
    destruct (read_loop_sound (Chat_body ws room)
                (λ h, {[ws]} ∪ members room h) ["json_error"; "chat"]
                (Chat_body_sound ws room) inbox (after w1 2 evs))
      as (st & n & evs1 & -> & Hst & _) end.
  rewrite after_after. destruct Hst as [-> | ->].
  - left. by unfold ret.
  - right. rewrite Chat_close_spec.
    match goal with |- context [removeFromRoom ws room ?x] =>
      pose proof (removeFromRoom_hub_ext ws room x w1 eq_refl) as H;
      destruct (removeFromRoom ws room x) as [[] w3] end.
    unfold ret. cbn [fst snd] in *. by split.
Qed.

(** X12. A chat session that has returned leaves the registry exactly as it
    found it, when its connection was not in the room before and the
    registry did not hold the room empty: clients, rooms and the members of
    every room are what they were. *)
Theorem closed_chat_session_restores_registry (ws : Conn) (room : string)
    (inbox : list ReadResult) (w : World) :
  ws ∉ members room (hub w) →
  rooms (hub w) !! room ≠ Some ∅ →
  (Chat ws room inbox w).1 = Returned →
  hub (Chat ws room inbox w).2 = hub w.
Proof.
  intros Hws Hne Hret.
  destruct (decide (room = "")) as [->|Hroom].
  { unfold Chat in Hret. simpl in Hret. discriminate Hret. }
  destruct (Chat_hub ws room inbox w Hroom) as [[Hst _]|[_ ->]].
  { rewrite Hret in Hst. discriminate Hst. }
  by apply removeFromRoom_addToRoom_hub.
Qed.

(** X13. Whatever a chat session does and however far it has got, it keeps
    the registry sound: no room is left with an entry and no member, the
    client set is untouched, and the members of every other room are
    untouched. *)
Theorem chat_session_keeps_registry_sound (ws : Conn) (room other : string)
    (inbox : list ReadResult) (w : World) :
  no_empty_room (hub w) →
  other ≠ room →
  let run := Chat ws room inbox w in
  no_empty_room (hub run.2) ∧
  clients (hub run.2) = clients (hub w) ∧
  members other (hub run.2) = members other (hub w).
Proof.
  intros Hinv Hother. cbv zeta.
  destruct (decide (room = "")) as [->|Hroom].
  { unfold Chat. simpl. unfold ret. by cbn [snd]. }
  assert (members other (hub (addToRoom ws room w).2) = members other (hub w)
          ∧ clients (hub (addToRoom ws room w).2) = clients (hub w)) as [Ha Hac].
  { rewrite addToRoom_spec. unfold members. cbn [snd hub rooms clients].
    by rewrite lookup_insert_ne. }
  assert (∀ x, members other (hub (removeFromRoom ws room x).2)
                 = members other (hub x)
               ∧ clients (hub (removeFromRoom ws room x).2) = clients (hub x))
    as Hr.
  { intros x. rewrite removeFromRoom_spec. unfold members at 1.
    cbn [snd hub rooms clients]. split; [|done].
    destruct (decide (ws ∈ members room (hub x))); [|done].
    destruct (decide (members room (hub x) ∖ {[ws]} = ∅)).
    - by rewrite lookup_delete_ne.
    - by rewrite lookup_insert_ne. }
  destruct (Chat_hub ws room inbox w Hroom) as [[_ Hh]|[_ Hh]];
    unfold members; rewrite Hh; fold (members other).
  - split; [by apply addToRoom_no_empty|]. by split.
  - destruct (Hr (addToRoom ws room w).2) as [Hm Hc].
    fold (members other (hub (removeFromRoom ws room (addToRoom ws room w).2).2)).
    split; [by apply removeFromRoom_no_empty, addToRoom_no_empty|].
    split; [by rewrite Hc|by rewrite Hm].
Qed.

(** X19. A chat session holds its connection in its room for as long as it
    runs: while it waits for a frame, the members of the room are those it
    found and its own connection; once it has returned, they are those it
    found without its connection. A handler that is given no room is
    refused and changes nothing, and only such a handler is refused. *)
Theorem chat_session_membership (ws : Conn) (room : string)
    (inbox : list ReadResult) (w : World) :
  let run := Chat ws room inbox w in
  match run.1 with
  | Parked => members room (hub run.2) = {[ws]} ∪ members room (hub w)
  | Returned => members room (hub run.2) = members room (hub w) ∖ {[ws]}
  | Rejected => room = "" ∧ run.2 = w
  end ∧
  (room = "" → run = (Rejected, w)) ∧
  (room ≠ "" → run.1 ≠ Rejected).
Proof.
  cbv zeta. split; [|split].
  - destruct (decide (room = "")) as [->|Hroom]; [done|].
    destruct (Chat_trace ws room inbox w Hroom) as (evs & _ & Hcase).
    destruct Hcase as [(-> & _ & Hm)|(-> & Hm & _)]; [done|].
    rewrite Hm. apply leibniz_equiv. intros x.
    rewrite !elem_of_difference, elem_of_union, elem_of_singleton.
    split; [intros [[H|H] Hne]; [by destruct Hne|done]|].
    intros [H Hne]. split; [by right|done].
  - by intros ->.
  - intros Hroom.
    destruct (Chat_trace ws room inbox w Hroom) as (evs & _ & Hcase).
    by destruct Hcase as [(-> & _)|(-> & _)].
Qed.

(** *** Reading *)

(** X18. [safeReadJSON] fails only with the read: a read error is passed on
    as it is, without a clock reading; any frame that was read, text or
    binary, well-formed or not, gives an envelope. It writes nothing,
    leaves the registry alone and takes at most one clock reading. *)
Theorem decoding_fails_only_with_the_read (r : ReadResult) (w : World) :
  let res := safeReadJSON r w in
  hub res.2 = hub w ∧ trace res.2 = trace w ∧
  ticks w ≤ ticks res.2 ≤ S (ticks w) ∧
  match r with
  | RErr e => res = (inr e, w)
  | RFrame _ _ => ∃ msg, res.1 = inl msg
  end.
Proof.
  cbv zeta.
  destruct (safeReadJSON_cases r w)
    as [(e & -> & ->)|[(msg & H & _)|(msg & H & _)]].
  - simpl. repeat split; auto.
  - rewrite H. cbn [fst snd]. repeat split; auto.
    destruct r as [mt data|e]; [by exists msg|].
    simpl in H. unfold ret in H. discriminate H.
  - rewrite H. cbn [fst snd]. unfold after. cbn [hub trace ticks].
    rewrite app_nil_r. repeat split; auto.
    destruct r as [mt data|e]; [by exists msg|].
    simpl in H. unfold ret in H. discriminate H.
Qed.

End Handlers.

(** ** The properties at work on the sample surroundings *)

(** C1, as stated, fails. Connection 1 on the echo endpoint sends a text
    that is not JSON, then an empty object, over a link that goes down
    after the welcome: the reply to the first frame fails, the loop ends
    there, the handler returns and closes the connection, and the second
    frame is never read. *)
Lemma failed_reply_to_malformed_frame_ends_session :
  let run := Echo sample_clock (link_up_until 1) sample_decode 1
               [RFrame TextMessage "{oops"; RFrame TextMessage "{}"] initial in
  run.1 = Returned ∧
  drop 1 (trace run.2) =
    [EvWrite 1 (parse_error "{oops"
                  "invalid character looking for beginning of value"
                  1700000001 "") false;
     EvClose 1].
Proof. vm_compute. split; reflexivity. Qed.

Lemma parse_error_goes_back_to_sender_witness :
  Chat_body sample_clock link_up sample_decode 1 "room1"
    (RFrame TextMessage "{oops") two_rooms =
  (Continue,
   after two_rooms 1
     [EvWrite 1 (parse_error "{oops"
                   "invalid character looking for beginning of value"
                   1700000000 "room1") true]).
Proof.
  exact (proj2 (proj2 (proj1
    (parse_error_goes_back_to_sender sample_clock link_up sample_decode
       1 "room1" "{oops" "invalid character looking for beginning of value"
       [] two_rooms eq_refl)))).
Defined.

Lemma room_entry_iff_member_witness :
  let ops := [Join 1 "R"; Join 2 "R"; Leave 2 "R"] in
  let w := (run_ops ops initial).2 in
  joined ops "R" = {[1]} ∧
  rooms (hub w) !! "R" = Some {[1]} ∧
  rooms (hub (removeFromRoom 1 "R" w).2) !! "R" = None.
Proof.
  cbv zeta.
  pose proof (room_entry_iff_member link_up
                [Join 1 "R"; Join 2 "R"; Leave 2 "R"] "R") as H.
  cbv zeta in H.
  assert (joined [Join 1 "R"; Join 2 "R"; Leave 2 "R"] "R" = {[1]}) as Hj
    by (vm_compute; reflexivity).
  split; [exact Hj|]. split.
  - rewrite (proj1 (proj2 H)), Hj. reflexivity.
  - refine (proj1 (proj2 (proj2 (proj2 (proj2 (proj2 (proj2 (proj2 (proj2
      H))))))) 1 zeroMessage _)).
    rewrite (proj1 H). exact Hj.
Defined.

Lemma leave_notice_precedes_departure_witness :
  ∃ before leaves,
    emitted two_rooms
      (Chat sample_clock link_up sample_decode 1 "room1" [RErr "EOF"] two_rooms).2
      = before ++ leaves ++ [EvClose 1] ∧
    In 1 (recipients leaves).
Proof.
  destruct (proj2 (leave_notice_precedes_departure sample_clock link_up
              sample_decode 1 "room1" [RErr "EOF"] two_rooms) eq_refl)
    as (before & leaves & Htr & _ & _ & _ & Hin & _).
  exists before, leaves. split; [exact Htr|]. by apply list_elem_of_In.
Defined.

(** A broadcast to connections 1 and 2 when the writes to connection 2
    fail: connection 1 is written all the same, and one success is counted
    out of two. *)
Example one_failed_write_of_two :
  let out := broadcastToAll (link_down_for 2) zeroMessage two_clients in
  out.1 = Some (1, 2) ∧
  recipients (emitted two_clients out.2) ≡ₚ [1; 2] ∧
  failures (emitted two_clients out.2) = 1 ∧
  hub out.2 = hub two_clients.
Proof.
  vm_compute. split; [reflexivity|]. split; [apply perm_swap|].
  split; reflexivity.
Qed.

(** C7: the code at a binary frame. Connection 1 sends a binary frame on
    the broadcast endpoint, where connection 2 is too: the loop takes the
    refusal for a message and broadcasts its text, in a [broadcast]
    envelope, to both connections, and goes on. *)
Theorem binary_frame_is_broadcast :
  let refusal := {| Type_ := "broadcast";
                    Data := DString "Binary messages not supported";
                    Timestamp := 1700000001; Room := "" |} in
  let turn := Broadcast_body sample_clock link_up sample_decode 1
                (RFrame BinaryMessage "abc") two_clients in
  turn.1 = Continue ∧
  recipients (emitted two_clients turn.2) ≡ₚ [1; 2] ∧
  messages (emitted two_clients turn.2) = [refusal; refusal] ∧
  successes (emitted two_clients turn.2) = 2.
Proof.
  vm_compute. split; [reflexivity|]. split; [apply perm_swap|].
  split; reflexivity.
Qed.

Lemma room_isolation_witness :
  (3 ∉ recipients (emitted two_rooms
         (broadcastToRoom link_up "room1" zeroMessage two_rooms).2)) ∧
  (3 ∉ recipients (emitted two_rooms
         (Chat_body sample_clock link_up sample_decode 1 "room1"
            (RFrame TextMessage text_data_hi) two_rooms).2)) ∧
  (3 ∉ recipients (emitted two_rooms
         (Chat sample_clock link_up sample_decode 1 "room1"
            [RFrame TextMessage text_data_hi; RErr "EOF"] two_rooms).2)).
Proof.
  apply (room_isolation sample_clock link_up sample_decode 1 "room1"
           zeroMessage (RFrame TextMessage text_data_hi)
           [RFrame TextMessage text_data_hi; RErr "EOF"]
           two_rooms 3).
  - vm_compute. intros H. discriminate H.
  - lia.
Defined.

Lemma close_is_idempotent_witness :
  removeClient 1 two_clients
    = (tt, {| hub := {| clients := {[2]}; rooms := ∅ |};
              trace := [EvClose 1]; ticks := 0 |}) ∧
  removeClient 1 (removeClient 1 two_clients).2
    = (tt, (removeClient 1 two_clients).2).
Proof.
  split; [vm_compute; reflexivity|].
  exact (proj1 (proj2
    (close_is_idempotent sample_clock link_up sample_decode
       1 1 1 "room1" (RErr "EOF") [] two_clients))).
Defined.

Lemma zero_timestamp_is_replaced_witness :
  safeReadJSON sample_clock sample_decode (RFrame TextMessage text_timestamp_0)
    initial
  = safeReadJSON sample_clock sample_decode (RFrame TextMessage "{}") initial.
Proof.
  refine (proj1 (proj2 (proj2
    (zero_timestamp_is_replaced sample_clock link_up sample_decode
       1 "room1" text_timestamp_0 "{}" _ (RErr "EOF") initial _)))
    eq_refl eq_refl eq_refl).
  intros k. unfold sample_clock. lia.
Defined.

(** C6, as stated, fails. Connection 1 holds a chat session in room1, where
    connection 2 is too, and its read fails: the leave notice is written to
    connection 2 and to connection 1 itself, connection 1 being still a
    member of the room, and the removal and the close of connection 1 come
    last. *)
Lemma leaver_receives_its_own_leave_notice :
  let session := Chat sample_clock link_up sample_decode 1 "room1" [RErr "EOF"] in
  let notice := leaveMsg "room1" 1700000002 in
  let closing := drop 3 (trace (session two_rooms).2) in
  (session two_rooms).1 = Returned ∧
  messages closing = [notice; notice] ∧
  recipients closing ≡ₚ [1; 2] ∧
  successes closing = 2 ∧
  last closing = Some (EvClose 1) ∧
  members "room1" (hub (session two_rooms).2) = {[2]}.
Proof.
  vm_compute. split; [reflexivity|]. split; [reflexivity|].
  split; [apply perm_swap|]. repeat split; reflexivity.
Qed.

(** ** More of the handlers, on the sample surroundings *)

Lemma echo_returns_the_payload_witness :
  ∃ n k,
    Echo_body sample_clock link_up sample_decode 1
      (RFrame TextMessage text_data_hi) initial =
    (Continue,
     after initial n [EvWrite 1 {| Type_ := "echo"; Data := DString "hi";
                                   Timestamp := sample_clock k; Room := "" |}
                        true]) ∧
    0 ≤ k < n + 0.
Proof.
  refine (echo_returns_the_payload sample_clock link_up sample_decode 1
            text_data_hi _ initial eq_refl _).
  vm_compute. intros H. discriminate H.
Defined.

Lemma broadcast_carries_the_payload_witness :
  recipients (emitted two_clients
    (Broadcast_body sample_clock link_up sample_decode 1
       (RFrame TextMessage text_data_hi) two_clients).2)
  ≡ₚ elements (clients (hub two_clients)).
Proof.
  refine (proj1 (proj2 (proj2
    (broadcast_carries_the_payload sample_clock link_up sample_decode 1
       text_data_hi _ two_clients eq_refl _)))).
  vm_compute. intros H. discriminate H.
Defined.

Lemma chat_carries_the_payload_witness :
  recipients (emitted two_rooms
    (Chat_body sample_clock link_up sample_decode 1 "room1"
       (RFrame TextMessage text_data_hi) two_rooms).2)
  ≡ₚ elements (members "room1" (hub two_rooms)).
Proof.
  refine (proj1 (proj2 (proj2
    (chat_carries_the_payload sample_clock link_up sample_decode 1 "room1"
       text_data_hi _ two_rooms eq_refl _)))).
  vm_compute. intros H. discriminate H.
Defined.

Lemma json_error_type_is_never_fanned_out_witness :
  recipients (emitted two_clients
    (Broadcast_body sample_clock link_up sample_decode' 1
       (RFrame TextMessage text_type_json_error) two_clients).2) = [1].
Proof.
  refine (proj1 (proj2 (proj2 (proj1 (proj2
    (json_error_type_is_never_fanned_out sample_clock link_up sample_decode'
       1 "room1" text_type_json_error _ two_clients eq_refl eq_refl)))))).
Defined.

Lemma leave_undoes_join_witness :
  hub (removeFromRoom 3 "room1" (addToRoom 3 "room1" two_rooms).2).2
  = hub two_rooms.
Proof.
  refine (proj1 (leave_undoes_join 3 "room1" two_rooms _ _)).
  - vm_compute. intros H. discriminate H.
  - vm_compute. intros H. discriminate H.
Defined.

Lemma registry_operations_are_local_witness :
  members "room2" (hub (addToRoom 1 "room1" two_rooms).2)
  = members "room2" (hub two_rooms).
Proof.
  refine (proj1 (proj1
    (registry_operations_are_local 1 "room1" "room2" two_rooms _))).
  intros H. discriminate H.
Defined.

Lemma closed_chat_session_restores_registry_witness :
  hub (Chat sample_clock link_up sample_decode 3 "room1"
         [RFrame TextMessage text_data_hi; RErr "EOF"] two_rooms).2
  = hub two_rooms.
Proof.
  refine (closed_chat_session_restores_registry sample_clock link_up
            sample_decode 3 "room1"
            [RFrame TextMessage text_data_hi; RErr "EOF"] two_rooms _ _ _).
  - vm_compute. intros H. discriminate H.
  - vm_compute. intros H. discriminate H.
  - vm_compute. reflexivity.
Defined.

Lemma chat_session_keeps_registry_sound_witness :
  no_empty_room
    (hub (Chat sample_clock link_up sample_decode 1 "room1"
            [RFrame TextMessage text_data_hi] initial).2).
Proof.
  refine (proj1
    (chat_session_keeps_registry_sound sample_clock link_up sample_decode
       1 "room1" "room2" [RFrame TextMessage text_data_hi] initial _ _)).
  - intros r s. vm_compute. intros H. discriminate H.
  - intros H. discriminate H.
Defined.

Lemma register_then_deregister_witness :
  hub (removeClient 3 (addClient 3 two_clients).2).2 = hub two_clients.
Proof.
  refine (proj1 (proj2 (register_then_deregister 3 two_clients) _)).
  vm_compute. intros H. discriminate H.
Defined.

Lemma session_ends_at_first_read_error_witness :
  (Chat sample_clock link_up sample_decode 1 "room1"
     ([RFrame TextMessage text_data_hi] ++ [RErr "EOF"]) two_rooms).1
  = Returned.
Proof.
  refine (proj2 (proj2 (proj2
    (session_ends_at_first_read_error sample_clock link_up sample_decode
       1 "room1" [RFrame TextMessage text_data_hi] [] "EOF" two_rooms))) _).
  intros H. discriminate H.
Defined.

Lemma chat_session_membership_witness :
  Chat sample_clock link_up sample_decode 1 "" [RErr "closed"] two_rooms =
    (Rejected, two_rooms) ∧
  (Chat sample_clock link_up sample_decode 3 "room1" [] two_rooms).1 ≠
    Rejected.
Proof.
  split.
  - exact (proj1 (proj2
      (chat_session_membership sample_clock link_up sample_decode
         1 "" [RErr "closed"] two_rooms)) eq_refl).
  - refine (proj2 (proj2
      (chat_session_membership sample_clock link_up sample_decode
         3 "room1" [] two_rooms)) _).
    discriminate.
Defined.

End WS.

(** * Facts about the streaming calls *)

Module GRPCFacts.
Import GRPC.

Lemma int32_small (z : Z) :
  (- 2 ^ 31 ≤ z < 2 ^ 31)%Z → int32 z = z.
Proof. intros H. unfold int32. rewrite Z.mod_small; lia. Qed.

Lemma int32_succ (z : Z) : int32 (int32 z + 1) = int32 (z + 1).
Proof.
  unfold int32.
  replace ((z + 2 ^ 31) mod 2 ^ 32 - 2 ^ 31 + 1 + 2 ^ 31)%Z
    with ((z + 2 ^ 31) mod 2 ^ 32 + 1)%Z by lia.
  rewrite Z.add_mod_idemp_l by lia.
  f_equal. f_equal. lia.
Qed.

Lemma int32_shift (q : Z) (i : nat) :
  int32 (int32 (q + 1) + Z.of_nat i) = int32 (q + Z.of_nat (S i)).
Proof.
  unfold int32.
  replace ((q + 1 + 2 ^ 31) mod 2 ^ 32 - 2 ^ 31 + Z.of_nat i + 2 ^ 31)%Z
    with ((q + 1 + 2 ^ 31) mod 2 ^ 32 + Z.of_nat i)%Z by lia.
  rewrite Z.add_mod_idemp_l by lia.
  f_equal. f_equal. lia.
Qed.

Section Calls.

Variable clock : nat → Z.

Lemma Send_ok (response : StreamResponse) (s : Wire) :
  Forall (λ o, o = None) (outcomes s) →
  Send response s =
  (None, {| outcomes := drop 1 (outcomes s); sent := sent s ++ [response];
            ticks := ticks s |}).
Proof.
  intros Hok. unfold Send. destruct (outcomes s) as [|[e|] os]; [done| |done].
  by inversion Hok.
Qed.

(** The channel of [BidiStream] never makes its one sender wait. *)
Lemma chan_send_fresh (e : string) :
  chan_send e (make_chan 2) =
  Some {| buffer := [e]; capacity := 2; closed := false |}.
Proof. done. Qed.

Lemma map_seq_shift (q : Z) (n : nat) :
  map (λ i, int32 (int32 (q + 1) + Z.of_nat i)) (seq 1 n) =
  map (λ i, int32 (q + Z.of_nat i)) (seq 2 n).
Proof.
  rewrite <- (seq_shift n 1), List.map_map.
  apply List.map_ext. intros i. apply int32_shift.
Qed.

(** Whatever the run, the responses that went out are numbered by the
    32-bit counter without a gap. *)
Lemma receive_loop_sequence (inbox : list RecvResult) :
  ∀ (q : Z) (ch : Chan) (s : Wire),
  ∃ n, map Sequence (sent (receive_loop clock inbox q ch s).2) =
       map Sequence (sent s) ++ map (λ i, int32 (q + Z.of_nat i)) (seq 1 n).
Proof.
  induction inbox as [|r rest IH]; intros q ch s.
  - exists 0. simpl. by rewrite app_nil_r.
  - destruct r as [req| |e]; simpl.
    + unfold Send. simpl.
      destruct (outcomes s) as [|[e|] os]; simpl.
      * match goal with |- context [receive_loop clock rest ?q' ch ?s'] =>
          destruct (IH q' ch s') as [n Hn] end.
        exists (S n). rewrite Hn. simpl. rewrite map_app. simpl.
        rewrite <- app_assoc. simpl. by rewrite map_seq_shift.
      * exists 0. destruct (chan_send e ch); simpl; by rewrite app_nil_r.
      * match goal with |- context [receive_loop clock rest ?q' ch ?s'] =>
          destruct (IH q' ch s') as [n Hn] end.
        exists (S n). rewrite Hn. simpl. rewrite map_app. simpl.
        rewrite <- app_assoc. simpl. by rewrite map_seq_shift.
    + exists 0. by rewrite app_nil_r.
    + exists 0. destruct (chan_send e ch); simpl; by rewrite app_nil_r.
Qed.

(** With every send succeeding, a stream of requests that ends well is
    answered request by request, and the loop returns. *)
Lemma receive_loop_items (reqs : list StreamRequest) :
  ∀ (q : Z) (ch : Chan) (s : Wire),
  Forall (λ o, o = None) (outcomes s) →
  receive_loop clock (map RecvItem reqs ++ [RecvEOF]) q ch s =
  (true, ch,
   {| outcomes := drop (length reqs) (outcomes s);
      sent := sent s ++ answered clock (ticks s) q reqs;
      ticks := length reqs + ticks s |}).
Proof.
  induction reqs as [|req reqs IH]; intros q ch s Hok; simpl.
  - rewrite app_nil_r. by destruct s.
  - rewrite Send_ok by done. simpl.
    rewrite IH; simpl.
    + rewrite <- app_assoc. simpl. rewrite drop_drop.
      repeat f_equal. lia.
    + by apply Forall_drop.
Qed.

(** Below the limit of the counter, its numbers are the natural ones. *)
Lemma answered_numbered (reqs : list StreamRequest) :
  ∀ (t k : nat),
  (Z.of_nat k + Z.of_nat (length reqs) ≤ 2147483647)%Z →
  answered clock t (Z.of_nat k) reqs = numbered clock t k reqs.
Proof.
  induction reqs as [|req reqs IH]; intros t k Hb; simpl; [done|].
  simpl in Hb.
  rewrite int32_small by lia.
  replace (Z.of_nat k + 1)%Z with (Z.of_nat (S k)) by lia.
  rewrite IH by lia. done.
Qed.

Lemma numbered_sequence (reqs : list StreamRequest) :
  ∀ (t k : nat),
  map Sequence (numbered clock t k reqs) =
  map Z.of_nat (seq (S k) (length reqs)).
Proof.
  induction reqs as [|req reqs IH]; intros t k; simpl; [done|].
  by rewrite IH.
Qed.

(** The receiving goroutine and the specification's account of it agree:
    the goroutine has returned exactly when the account has an outcome; an
    error is then in the channel, and nothing else ever is. *)
Lemma receive_loop_outcome (inbox : list RecvResult) :
  ∀ (q : Z) (s : Wire),
  ∃ s', receive_loop clock inbox q (make_chan 2) s =
        (match flow_outcome inbox (outcomes s) with
         | None => false
         | Some _ => true
         end,
         match flow_outcome inbox (outcomes s) with
         | Some (Some e) => {| buffer := [e]; capacity := 2; closed := false |}
         | _ => make_chan 2
         end, s').
Proof.
  induction inbox as [|r rest IH]; intros q s.
  - by eexists.
  - destruct r as [req| |e]; simpl.
    + unfold Send. simpl. destruct (outcomes s) as [|[e|] os]; simpl.
      * match goal with |- context [receive_loop clock rest ?q' _ ?s'] =>
          destruct (IH q' s') as [s'' ->] end.
        by eexists.
      * by eexists.
      * match goal with |- context [receive_loop clock rest ?q' _ ?s'] =>
          destruct (IH q' s') as [s'' ->] end.
        by eexists.
    + by eexists.
    + by eexists.
Qed.

Lemma answered_sequence (reqs : list StreamRequest) :
  ∀ (t : nat) (q : Z),
  map Sequence (answered clock t q reqs) =
  map (λ i, int32 (q + Z.of_nat i)) (seq 1 (length reqs)).
Proof.
  induction reqs as [|req reqs IH]; intros t q; simpl; [done|].
  by rewrite IH, map_seq_shift.
Qed.

Lemma numbered_length (reqs : list StreamRequest) :
  ∀ (t k : nat), length (numbered clock t k reqs) = length reqs.
Proof. induction reqs as [|req reqs IH]; intros t k; simpl; [done|]. by rewrite IH. Qed.

(** The loop of [ServerStream], whatever the run: the responses that went
    out carry the numbers of the first indices. *)
Lemma ServerStream_loop_sequence (ctx : nat → error) (req : StreamRequest)
    (indices : list nat) :
  ∀ s, ∃ n, n ≤ length indices ∧
    map Sequence (sent (ServerStream_loop clock ctx req indices s).2) =
    map Sequence (sent s) ++
    map (λ i, int32 (Z.of_nat i + 1)) (take n indices).
Proof.
  induction indices as [|i rest IH]; intros s; simpl.
  - exists 0. split; [done|]. by rewrite app_nil_r.
  - destruct (ctx i) as [e|].
    { exists 0. split; [lia|]. simpl. by rewrite app_nil_r. }
    unfold Send. simpl. destruct (outcomes s) as [|[e|] os]; simpl.
    + match goal with |- context [ServerStream_loop clock ctx req rest ?s'] =>
        destruct (IH s') as (n & Hle & Hn) end.
      exists (S n). split; [lia|]. rewrite Hn. simpl.
      rewrite map_app. simpl. by rewrite <- app_assoc.
    + exists 0. split; [lia|]. simpl. by rewrite app_nil_r.
    + match goal with |- context [ServerStream_loop clock ctx req rest ?s'] =>
        destruct (IH s') as (n & Hle & Hn) end.
      exists (S n). split; [lia|]. rewrite Hn. simpl.
      rewrite map_app. simpl. by rewrite <- app_assoc.
Qed.

(** The loop of [ServerStream] when nothing cancels the call and every send
    succeeds: it runs through all its indices and returns [nil]. *)
Lemma ServerStream_loop_all (ctx : nat → error) (req : StreamRequest)
    (indices : list nat) :
  (∀ i, ctx i = None) →
  ∀ s, Forall (λ o, o = None) (outcomes s) →
  (ServerStream_loop clock ctx req indices s).1 = None ∧
  map Sequence (sent (ServerStream_loop clock ctx req indices s).2) =
  map Sequence (sent s) ++ map (λ i, int32 (Z.of_nat i + 1)) indices.
Proof.
  intros Hctx. induction indices as [|i rest IH]; intros s Hok; simpl.
  - split; [done|]. by rewrite app_nil_r.
  - rewrite Hctx, Send_ok by done. simpl.
    match goal with |- context [ServerStream_loop clock ctx req rest ?s'] =>
      destruct (IH s') as (H1 & H2) end.
    { simpl. by apply Forall_drop. }
    split; [done|]. rewrite H2. simpl. rewrite map_app. simpl.
    by rewrite <- app_assoc.
Qed.

(** A stream of requests that ends well, none of whose responses fails to
    be sent, is answered request by request, and the loop returns; the
    sends after these play no part. *)
Lemma receive_loop_served (reqs : list StreamRequest) :
  ∀ (later : list RecvResult) (q : Z) (ch : Chan) (s : Wire),
  Forall (λ o, o = None) (take (length reqs) (outcomes s)) →
  receive_loop clock (map RecvItem reqs ++ RecvEOF :: later) q ch s =
  (true, ch,
   {| outcomes := drop (length reqs) (outcomes s);
      sent := sent s ++ answered clock (ticks s) q reqs;
      ticks := length reqs + ticks s |}).
Proof.
  induction reqs as [|req reqs IH]; intros later q ch s Hok.
  - simpl. rewrite app_nil_r. by destruct s.
  - cbn [map app receive_loop length answered]. unfold Send, tick.
    cbn [outcomes sent ticks]. cbn [length] in Hok.
    destruct (outcomes s) as [|[e|] os] eqn:Hos.
    + rewrite IH by (cbn [outcomes]; rewrite take_nil; constructor).
      cbn [outcomes sent ticks]. rewrite !drop_nil, <- app_assoc.
      rewrite Nat.add_succ_r. reflexivity.
    + rewrite firstn_cons in Hok. by inversion Hok.
    + rewrite firstn_cons in Hok. inversion Hok; subst.
      rewrite IH by done.
      cbn [outcomes sent ticks]. rewrite <- app_assoc.
      rewrite Nat.add_succ_r. reflexivity.
Qed.

(** When the responses to the requests [before] are sent and the send of
    the next response fails, the loop returns there with that error in the
    channel: the responses that went out are those to [before], and what
    the client sends after that request is never received. *)
Lemma receive_loop_send_fails (before : list StreamRequest) :
  ∀ (req : StreamRequest) (later : list RecvResult) (q : Z) (s : Wire)
    (e : string),
  Forall (λ o, o = None) (take (length before) (outcomes s)) →
  outcomes s !! length before = Some (Some e) →
  receive_loop clock (map RecvItem before ++ RecvItem req :: later) q
    (make_chan 2) s =
  (true, {| buffer := [e]; capacity := 2; closed := false |},
   {| outcomes := drop (S (length before)) (outcomes s);
      sent := sent s ++ answered clock (ticks s) q before;
      ticks := S (length before) + ticks s |}).
Proof.
  induction before as [|r before IH]; intros req later q s e Hok Hfail.
  - cbn [map app receive_loop length answered] in *. unfold Send, tick.
    cbn [outcomes sent ticks].
    destruct (outcomes s) as [|[e'|] os] eqn:Hos; [done| |done].
    injection Hfail as ->. rewrite chan_send_fresh, app_nil_r. done.
  - cbn [map app receive_loop length answered] in *. unfold Send, tick.
    cbn [outcomes sent ticks].
    destruct (outcomes s) as [|[e'|] os] eqn:Hos; [done| |].
    + rewrite firstn_cons in Hok. by inversion Hok.
    + rewrite firstn_cons in Hok. inversion Hok; subst.
      rewrite (IH req later _ _ e) by done.
      cbn [outcomes sent ticks]. rewrite <- app_assoc.
      rewrite Nat.add_succ_r. reflexivity.
Qed.

(** Of the first [k] sends to come, either none fails or there is a first
    one that does. *)
Lemma first_failure (os : list error) :
  ∀ k, Forall (λ o, o = None) (take k os) ∨
       ∃ n e, n < k ∧ Forall (λ o, o = None) (take n os) ∧
              os !! n = Some (Some e).
Proof.
  induction os as [|o os IH]; intros k.
  - left. rewrite take_nil. constructor.
  - destruct k as [|k]; [left; constructor|].
    destruct o as [e|].
    + right. exists 0, e. split; [lia|]. split; [constructor|done].
    + destruct (IH k) as [Hok|(n & e & Hn & Hok & He)].
      * left. rewrite firstn_cons. by constructor.
      * right. exists (S n), e. split; [lia|].
        split; [rewrite firstn_cons; by constructor|done].
Qed.

(** C4, as the code has it. On the bidirectional call, take a client whose
    K requests all arrive, K at most 2^31 - 1. When none of the K sends
    fails, the client gets exactly K responses, numbered 1 to K in the
    order of the requests, and the call succeeds. When the send of the
    response to request n + 1 is the first to fail, the call ends there
    with that error, and the responses that went out are those to the
    first n requests, numbered 1 to n, n < K. One of the two is the case
    in every such run. In any run at all, the responses that go out are
    numbered from 1 on without a gap by a signed 32-bit counter, which
    wraps beyond 2^31 - 1. The server-streaming call numbers its responses
    1, 2, ... in any run, and 1 to 5 when it runs to its end. *)
Theorem stream_sequence_numbers (ctx : nat → error) (req : StreamRequest)
    (reqs : list StreamRequest) (inbox : list RecvResult) (s : Wire) :
  (Z.of_nat (length reqs) ≤ 2147483647)%Z →
  (Forall (λ o, o = None) (take (length reqs) (outcomes s)) →
   BidiStream clock (map RecvItem reqs ++ [RecvEOF]) s =
     (Some None,
      {| outcomes := drop (length reqs) (outcomes s);
         sent := sent s ++ numbered clock (ticks s) 0 reqs;
         ticks := length reqs + ticks s |})) ∧
  (∀ n e, n < length reqs →
     Forall (λ o, o = None) (take n (outcomes s)) →
     outcomes s !! n = Some (Some e) →
     BidiStream clock (map RecvItem reqs ++ [RecvEOF]) s =
       (Some (Some e),
        {| outcomes := drop (S n) (outcomes s);
           sent := sent s ++ numbered clock (ticks s) 0 (take n reqs);
           ticks := S n + ticks s |})) ∧
  (∃ n, n ≤ length reqs ∧
     sent (BidiStream clock (map RecvItem reqs ++ [RecvEOF]) s).2 =
       sent s ++ numbered clock (ticks s) 0 (take n reqs) ∧
     (n = length reqs ∧
      (BidiStream clock (map RecvItem reqs ++ [RecvEOF]) s).1 = Some None
      ∨
      n < length reqs ∧
      ∃ e, outcomes s !! n = Some (Some e) ∧
           (BidiStream clock (map RecvItem reqs ++ [RecvEOF]) s).1 =
             Some (Some e))) ∧
  (∀ n, n ≤ length reqs →
     length (numbered clock (ticks s) 0 (take n reqs)) = n ∧
     map Sequence (numbered clock (ticks s) 0 (take n reqs)) =
       map Z.of_nat (seq 1 n)) ∧
  (∃ n, map Sequence (sent (BidiStream clock inbox s).2) =
        map Sequence (sent s) ++ map (λ i, int32 (Z.of_nat i)) (seq 1 n)) ∧
  (∃ n, n ≤ 5 ∧
        map Sequence (sent (ServerStream clock ctx req s).2) =
        map Sequence (sent s) ++ map Z.of_nat (seq 1 n)) ∧
  ((∀ i, ctx i = None) →
   Forall (λ o, o = None) (outcomes s) →
   (ServerStream clock ctx req s).1 = None ∧
   map Sequence (sent (ServerStream clock ctx req s).2) =
   map Sequence (sent s) ++ [1; 2; 3; 4; 5]%Z).
Proof.
  intros Hbound.
  assert (Forall (λ o, o = None) (take (length reqs) (outcomes s)) →
          BidiStream clock (map RecvItem reqs ++ [RecvEOF]) s =
            (Some None,
             {| outcomes := drop (length reqs) (outcomes s);
                sent := sent s ++ numbered clock (ticks s) 0 reqs;
                ticks := length reqs + ticks s |})) as Hall.
  { intros Hok. unfold BidiStream. rewrite receive_loop_served by done.
    simpl.
    pose proof (answered_numbered reqs (ticks s) 0) as H.
    change (Z.of_nat 0) with 0%Z in H. by rewrite H by lia. }
  assert (∀ n e, n < length reqs →
            Forall (λ o, o = None) (take n (outcomes s)) →
            outcomes s !! n = Some (Some e) →
            BidiStream clock (map RecvItem reqs ++ [RecvEOF]) s =
              (Some (Some e),
               {| outcomes := drop (S n) (outcomes s);
                  sent := sent s ++ numbered clock (ticks s) 0 (take n reqs);
                  ticks := S n + ticks s |})) as Hfail.
  { intros n e Hn Hok He.
    destruct (lookup_lt_is_Some_2 reqs n Hn) as [r Hr].
    assert (length (take n reqs) = n) as Hlen
      by (rewrite length_take; lia).
    assert (map RecvItem reqs ++ [RecvEOF] =
            map RecvItem (take n reqs) ++
            RecvItem r :: (map RecvItem (drop (S n) reqs) ++ [RecvEOF]))
      as ->.
    { rewrite <- (take_drop_middle reqs n r Hr) at 1.
      rewrite map_app, <- app_assoc. done. }
    unfold BidiStream.
    rewrite (receive_loop_send_fails (take n reqs) r _ 0 s e)
      by (rewrite Hlen; done).
    rewrite Hlen. simpl.
    pose proof (answered_numbered (take n reqs) (ticks s) 0) as H.
    change (Z.of_nat 0) with 0%Z in H. by rewrite H by lia. }
  split; [exact Hall|]. split; [exact Hfail|].
  split; [|split; [|split; [|split]]].
  - destruct (first_failure (outcomes s) (length reqs))
      as [Hok|(n & e & Hn & Hok & He)].
    + exists (length reqs). split; [done|].
      rewrite (Hall Hok), firstn_all. simpl. split; [done|]. by left.
    + exists n. split; [lia|].
      rewrite (Hfail n e Hn Hok He). simpl. split; [done|].
      right. split; [done|]. by exists e.
  - intros n Hn. rewrite numbered_length, numbered_sequence.
    rewrite length_take. by rewrite Nat.min_l.
  - destruct (receive_loop_sequence inbox 0 (make_chan 2) s) as [n Hn].
    exists n. unfold BidiStream.
    destruct (receive_loop clock inbox 0 (make_chan 2) s) as [[fin ch] s'].
    simpl in Hn.
    destruct (chan_recv (if fin then chan_close ch else ch)) as [[err ch']|];
      simpl; exact Hn.
  - destruct (ServerStream_loop_sequence ctx req (seq 0 5) s) as (n & Hle & Hn).
    exists n. rewrite length_seq in Hle. split; [done|].
    unfold ServerStream. rewrite Hn. f_equal.
    do 6 (destruct n as [|n]; [reflexivity|]). lia.
  - intros Hctx Hok.
    destruct (ServerStream_loop_all ctx req (seq 0 5) Hctx s Hok) as [H1 H2].
    unfold ServerStream. split; [done|]. rewrite H2. reflexivity.
Qed.

(** C5. The bidirectional call has returned exactly when its receiving
    goroutine has; what it returns is the outcome of the receive flow, [nil]
    at the end of the input and otherwise the first error met, a failed
    receive or a failed send; and it leaves the stream as the goroutine
    left it. *)
Theorem bidi_outcome_is_the_flow_outcome (inbox : list RecvResult) (s : Wire) :
  let call := BidiStream clock inbox s in
  let flow := receive_loop clock inbox 0 (make_chan 2) s in
  (is_Some call.1 ↔ flow.1.1 = true) ∧
  call.1 = flow_outcome inbox (outcomes s) ∧
  call.2 = flow.2.
Proof.
  cbv zeta. unfold BidiStream.
  destruct (receive_loop_outcome inbox 0 s) as [s' ->].
  destruct (flow_outcome inbox (outcomes s)) as [[e|]|]; simpl.
  - split; [|done]. split; [done|]. intros _. by eexists.
  - split; [|done]. split; [done|]. intros _. by eexists.
  - split; [|done]. split; [|done]. by intros [x Hx].
Qed.

(** The counter at work past its limit: the response to request number
    2^31 carries the least 32-bit integer. *)
Lemma counter_wraps (m : nat) (req : StreamRequest) :
  Z.of_nat m = 2147483647%Z →
  last (map Sequence
          (sent (BidiStream clock
                   (map RecvItem (repeat req (S m)) ++ [RecvEOF])
                   (fresh [])).2))
  = Some (-2147483648)%Z.
Proof.
  intros Hm. unfold BidiStream.
  rewrite receive_loop_items by constructor.
  cbn [chan_recv chan_close make_chan buffer closed snd sent fresh app].
  rewrite answered_sequence, repeat_length, seq_S, map_app.
  cbn [List.map]. rewrite last_snoc.
  f_equal. rewrite Nat2Z.inj_add, Hm. reflexivity.
Qed.

(** ** More of the streaming calls *)

Lemma int64_small (z : Z) :
  (- 2 ^ 63 ≤ z < 2 ^ 63)%Z → int64 z = z.
Proof. intros H. unfold int64. rewrite Z.mod_small; lia. Qed.

Lemma ClientStream_loop_items (reqs : list StreamRequest) :
  ∀ (tail : list RecvResult) (messages : list string) (total : Z) (k : nat)
    (u : Upload),
  (Z.of_nat k + Z.of_nat (length reqs) < 2 ^ 63)%Z →
  ClientStream_loop clock (map RecvItem reqs ++ tail) messages total
    (Z.of_nat k) u =
  ClientStream_loop clock tail (messages ++ map ReqData reqs) total
    (Z.of_nat (k + length reqs)) u.
Proof.
  induction reqs as [|req reqs IH]; intros tail messages total k u Hb; simpl.
  - by rewrite app_nil_r, Nat.add_0_r.
  - simpl in Hb. rewrite int64_small by lia.
    replace (Z.of_nat k + 1)%Z with (Z.of_nat (S k)) by lia.
    rewrite IH by lia. rewrite <- app_assoc. simpl.
    by replace (S (k + length reqs)) with (k + S (length reqs)) by lia.
Qed.

(** X14. The client-streaming call answers once, at the end of the input:
    after K requests (K below 2^63) and the end of the stream it sends one
    summary, which gives the count K and the data of the requests in the
    order received, and a total value of 0 whatever was received; the call
    returns what that send returns, and what arrives later is not read. If
    a receive fails instead, the call returns that error and has sent
    nothing. *)
Theorem client_stream_answers_once (reqs : list StreamRequest)
    (later : list RecvResult) (e : string) (u : Upload) :
  (Z.of_nat (length reqs) < 2 ^ 63)%Z →
  ClientStream clock (map RecvItem reqs ++ RecvEOF :: later) u =
    (Some (reply_outcome u),
     match reply_outcome u with
     | Some _ => {| reply_outcome := reply_outcome u; reply := reply u;
                    up_ticks := S (up_ticks u) |}
     | None =>
         {| reply_outcome := None;
            reply := Some {| Message := summary (Z.of_nat (length reqs))
                                          (map ReqData reqs) 0;
                             SimpleTimestamp := clock (up_ticks u) |};
            up_ticks := S (up_ticks u) |}
     end) ∧
  ClientStream clock (map RecvItem reqs ++ RecvError e :: later) u =
    (Some (Some e), u).
Proof.
  intros Hb. unfold ClientStream.
  pose proof (ClientStream_loop_items reqs (RecvEOF :: later) [] 0 0 u) as H1.
  pose proof (ClientStream_loop_items reqs (RecvError e :: later) [] 0 0 u) as H2.
  change (Z.of_nat 0) with 0%Z in H1, H2.
  rewrite H1, H2 by lia. simpl.
  split; [|done].
  unfold SendAndClose. simpl. by destruct (reply_outcome u).
Qed.

(** The loop of [ServerStream] that is cancelled at index [i], after the
    indices [pre]. *)
Lemma ServerStream_loop_cancelled (ctx : nat → error) (req : StreamRequest)
    (i : nat) (e : string) (rest : list nat) (pre : list nat) :
  (∀ j, j ∈ pre → ctx j = None) → ctx i = Some e →
  ∀ s, Forall (λ o, o = None) (outcomes s) →
  (ServerStream_loop clock ctx req (pre ++ i :: rest) s).1 = Some e ∧
  map Sequence (sent (ServerStream_loop clock ctx req (pre ++ i :: rest) s).2) =
  map Sequence (sent s) ++ map (λ j, int32 (Z.of_nat j + 1)) pre ∧
  ticks (ServerStream_loop clock ctx req (pre ++ i :: rest) s).2
   = length pre + ticks s.
Proof.
  intros Hpre Hi. induction pre as [|j pre IH]; intros s Hok; simpl.
  - rewrite Hi. simpl. by rewrite app_nil_r.
  - rewrite Hpre by by left. rewrite Send_ok by done. simpl.
    match goal with |- context [ServerStream_loop clock ctx req _ ?s'] =>
      destruct (IH (λ x Hx, Hpre x (list_elem_of_further _ _ _ Hx)) s')
        as (H1 & H2 & H3) end.
    { simpl. by apply Forall_drop. }
    split; [done|]. rewrite H2, H3. simpl. rewrite map_app. simpl.
    rewrite <- app_assoc. split; [done|lia].
Qed.

(** X15. A server-streaming call whose context is cancelled when the loop
    reaches index i, each send before having succeeded, has sent exactly
    the i responses numbered 1 to i, returns the error of the context, and
    takes no clock reading for the round it gives up. *)
Theorem server_stream_stops_when_cancelled (ctx : nat → error)
    (req : StreamRequest) (i : nat) (e : string) (s : Wire) :
  i < 5 →
  (∀ j, j < i → ctx j = None) →
  ctx i = Some e →
  Forall (λ o, o = None) (outcomes s) →
  let call := ServerStream clock ctx req s in
  call.1 = Some e ∧
  map Sequence (sent call.2) = map Sequence (sent s) ++ map Z.of_nat (seq 1 i) ∧
  length (sent call.2) = length (sent s) + i ∧
  ticks call.2 = i + ticks s.
Proof.
  intros Hi Hbefore Hat Hok. cbv zeta. unfold ServerStream.
  assert (seq 0 5 = seq 0 i ++ i :: seq (S i) (4 - i)) as ->.
  { do 5 (destruct i as [|i]; [reflexivity|]). lia. }
  destruct (ServerStream_loop_cancelled ctx req i e (seq (S i) (4 - i)) (seq 0 i))
    with (s := s) as (H1 & H2 & H3); [|done|done|].
  { intros j Hj. apply Hbefore. apply elem_of_seq in Hj. lia. }
  rewrite length_seq in H3.
  assert (map (λ j, int32 (Z.of_nat j + 1)) (seq 0 i) = map Z.of_nat (seq 1 i))
    as Hnum.
  { do 5 (destruct i as [|i]; [reflexivity|]). lia. }
  rewrite Hnum in H2. split; [done|]. split; [done|]. split; [|done].
  apply (f_equal length) in H2.
  rewrite length_app, !length_map, length_seq in H2. done.
Qed.

Lemma receive_loop_ended (inbox : list RecvResult) :
  ∀ (more : list RecvResult) (q : Z) (ch : Chan) (s : Wire),
  flow_outcome inbox (outcomes s) ≠ None →
  receive_loop clock (inbox ++ more) q ch s = receive_loop clock inbox q ch s.
Proof.
  induction inbox as [|r rest IH]; intros more q ch s Hend; simpl in *.
  - done.
  - destruct r as [req| |e]; [|done|done].
    unfold Send. simpl. destruct (outcomes s) as [|[e|] os]; simpl; [|done|].
    + by apply IH.
    + by apply IH.
Qed.

(** X16. Once the receive flow of a bidirectional call has ended, at the end
    of the stream or on an error, what the client sends afterwards changes
    neither the outcome of the call nor the responses sent. *)
Theorem bidi_ignores_input_after_the_end (inbox more : list RecvResult)
    (s : Wire) :
  flow_outcome inbox (outcomes s) ≠ None →
  BidiStream clock (inbox ++ more) s = BidiStream clock inbox s.
Proof.
  intros Hend. unfold BidiStream. by rewrite receive_loop_ended.
Qed.

Lemma receive_loop_answers (inbox : list RecvResult) :
  ∀ (q : Z) (ch : Chan) (s : Wire),
  ∃ n, n ≤ length (requests inbox) ∧
    sent (receive_loop clock inbox q ch s).2 =
      sent s ++ answered clock (ticks s) q (take n (requests inbox)) ∧
    (Forall (λ o, o = None) (outcomes s) → n = length (requests inbox)).
Proof.
  induction inbox as [|r rest IH]; intros q ch s.
  - exists 0. simpl. by rewrite app_nil_r.
  - destruct r as [req| |e].
    + simpl. unfold Send. simpl.
      destruct (outcomes s) as [|[e|] os] eqn:Ho; simpl.
      * match goal with |- context [receive_loop clock rest ?q' ch ?s'] =>
          destruct (IH q' ch s') as (n & Hle & Hn & Hall) end.
        exists (S n). split; [lia|]. rewrite Hn. simpl.
        split; [by rewrite <- app_assoc|]. intros _. f_equal. by apply Hall.
      * exists 0. split; [lia|]. split.
        -- destruct (chan_send e ch); simpl; by rewrite app_nil_r.
        -- intros Hok. by inversion Hok.
      * match goal with |- context [receive_loop clock rest ?q' ch ?s'] =>
          destruct (IH q' ch s') as (n & Hle & Hn & Hall) end.
        exists (S n). split; [lia|]. rewrite Hn. simpl.
        split; [by rewrite <- app_assoc|]. intros Hok. f_equal.
        apply Hall. simpl. by inversion Hok.
    + exists 0. simpl. by rewrite app_nil_r.
    + exists 0. simpl. destruct (chan_send e ch); simpl; by rewrite app_nil_r.
Qed.

Lemma answered_contents (reqs : list StreamRequest) :
  ∀ (t : nat) (q : Z),
  map Id (answered clock t q reqs) = map ReqId reqs ∧
  map Data (answered clock t q reqs) =
    map (λ r, "Echo: " +:+ ReqData r +:+ " (processed)") reqs ∧
  map Timestamp (answered clock t q reqs) = map clock (seq t (length reqs)).
Proof.
  induction reqs as [|req reqs IH]; intros t q; simpl; [done|].
  destruct (IH (S t) (int32 (q + 1))) as (-> & -> & ->). done.
Qed.

(** X17. In any run of the bidirectional call the responses sent answer the
    requests received, one for one and in order, up to the first send that
    fails: each carries the id of its request, the data of its request
    between "Echo: " and " (processed)", and the clock's reading when it
    was built. When no send fails, every request received before the end
    of the stream or a receive error is answered, also while the call is
    still waiting for input. *)
Theorem bidi_responses_answer_the_requests (inbox : list RecvResult) (s : Wire) :
  ∃ n new,
    n ≤ length (requests inbox) ∧
    sent (BidiStream clock inbox s).2 = sent s ++ new ∧
    map Id new = map ReqId (take n (requests inbox)) ∧
    map Data new =
      map (λ r, "Echo: " +:+ ReqData r +:+ " (processed)")
        (take n (requests inbox)) ∧
    map Timestamp new = map clock (seq (ticks s) n) ∧
    (Forall (λ o, o = None) (outcomes s) → n = length (requests inbox)).
Proof.
  destruct (receive_loop_answers inbox 0 (make_chan 2) s)
    as (n & Hle & Hn & Hall).
  exists n, (answered clock (ticks s) 0 (take n (requests inbox))).
  split; [done|]. split.
  { unfold BidiStream.
    destruct (receive_loop clock inbox 0 (make_chan 2) s) as [[fin ch] s'].
    simpl in Hn.
    by destruct (chan_recv (if fin then chan_close ch else ch)) as [[err ch']|]. }
  destruct (answered_contents (take n (requests inbox)) (ticks s) 0)
    as (H1 & H2 & H3).
  rewrite length_take, Nat.min_l in H3 by done. done.
Qed.

End Calls.

(** C4, as stated, fails, in two ways. A client sends two requests and the
    send of the first response fails: the call ends with that error and the
    client has no response at all. And a client that sends 2^31 requests
    gets, for the last of them, the number -2^31. *)
Lemma responses_can_be_fewer_or_wrap :
  BidiStream sample_clock [RecvItem hello; RecvItem hello; RecvEOF]
    (fresh [Some "transport is closing"])
  = (Some (Some "transport is closing"),
     {| outcomes := []; sent := []; ticks := 1 |}) ∧
  last (map Sequence
          (sent (BidiStream sample_clock
                   (map RecvItem (repeat hello (S (Z.to_nat 2147483647)))
                      ++ [RecvEOF])
                   (fresh [])).2))
  = Some (-2147483648)%Z.
Proof.
  split.
  - reflexivity.
  - apply counter_wraps. apply Z2Nat.id. lia.
Qed.

Lemma stream_sequence_numbers_witness :
  BidiStream sample_clock (map RecvItem [hello; hello] ++ [RecvEOF]) (fresh [])
  = (Some None,
     {| outcomes := [];
        sent := [echo_response hello 1700000000 1;
                 echo_response hello 1700000001 2];
        ticks := 2 |}) ∧
  BidiStream sample_clock (map RecvItem [hello; hello; hello] ++ [RecvEOF])
    (fresh [None; Some "broken pipe"; None])
  = (Some (Some "broken pipe"),
     {| outcomes := [None];
        sent := [echo_response hello 1700000000 1];
        ticks := 2 |}).
Proof.
  split.
  - refine (proj1 (stream_sequence_numbers sample_clock no_cancel hello
                     [hello; hello] [] (fresh []) _) _).
    + simpl. lia.
    + constructor.
  - refine (proj1 (proj2 (stream_sequence_numbers sample_clock no_cancel hello
                     [hello; hello; hello] []
                     (fresh [None; Some "broken pipe"; None]) _))
              1 "broken pipe" _ _ _).
    + simpl. lia.
    + simpl. lia.
    + repeat constructor.
    + reflexivity.
Defined.

Lemma client_stream_answers_once_witness :
  ClientStream sample_clock
    (map RecvItem [hello; hello] ++ RecvEOF :: [RecvItem hello]) waiting =
  (Some None,
   {| reply_outcome := None;
      reply := Some {| Message := summary 2 ["hello"; "hello"] 0;
                       SimpleTimestamp := 1700000000 |};
      up_ticks := 1 |}).
Proof.
  refine (proj1 (client_stream_answers_once sample_clock [hello; hello]
                   [RecvItem hello] "" waiting _)).
  simpl. lia.
Defined.

Lemma server_stream_stops_when_cancelled_witness :
  (ServerStream sample_clock (cancelled_from 2) hello (fresh [])).1
    = Some "context canceled" ∧
  map Sequence (sent (ServerStream sample_clock (cancelled_from 2) hello
                        (fresh [])).2) = [1; 2]%Z.
Proof.
  destruct (server_stream_stops_when_cancelled sample_clock (cancelled_from 2)
              hello 2 "context canceled" (fresh []))
    as (H1 & H2 & _).
  - lia.
  - intros j Hj. unfold cancelled_from.
    destruct j as [|[|j]]; [reflexivity|reflexivity|lia].
  - reflexivity.
  - constructor.
  - split; [exact H1|exact H2].
Defined.

Lemma bidi_ignores_input_after_the_end_witness :
  BidiStream sample_clock ([RecvItem hello; RecvEOF] ++ [RecvItem hello])
    (fresh [])
  = BidiStream sample_clock [RecvItem hello; RecvEOF] (fresh []).
Proof.
  refine (bidi_ignores_input_after_the_end sample_clock
            [RecvItem hello; RecvEOF] [RecvItem hello] (fresh []) _).
  simpl. intros H. discriminate H.
Defined.

End GRPCFacts.
